(** * ElevationSampler: brunnel correction, forest adjustment, resampling

    A shallow embedding of [src/ElevationSampler/core.py].

    Conventions of the embedding.
    - Floating-point numbers are read as exact rationals ([Q]); equality of
      computed values is [Qeq] ([==]) unless a value is copied verbatim.
      Where numpy goes on with [inf] or [nan] after a zero divisor, the
      embedding stops with [NonFinite]. Where the rounding of binary64
      decides what the code returns, it is followed on primitive floats
      ([Float64]).
    - numpy arrays and pandas columns are [list Q], indexed with stdpp's
      lookup [l !! i]; Python's negative indices and [IndexError] are
      written out in [py_getitem] and [py_setitem]. The element type of
      the elevation array ([dtype]) decides what a write stores.
    - A Python exception is a [Raise] in the result monad [res].
    - A [DataFrame] of intervals is a list of rows ([Brunnel]).
    - numpy, pandas and scipy calls ([np.convolve], [np.arange],
      [np.interp], [np.clip], [sort_values], [rolling(..).std()],
      [savgol_filter]) are modelled from the libraries' documented
      behaviour; the numbers they compute are parameters where the
      library's own rounding decides them. *)

From Stdlib Require Import ZArith QArith Qround Qminmax Lia Lqa.
From Stdlib Require Import Floats Uint63.
From stdpp Require Import base option list sorting gmap.

Local Open Scope Q_scope.

(** ** Exceptions and the result monad *)

(** The Python exceptions of the code, and two outcomes of the embedding
    that are no exceptions: [NonFinite], where numpy divides by zero and
    goes on with [inf] or [nan], values the rationals do not have, and
    [OutOfFuel], where a loop has used up the iterations it was given. *)
Inductive exn : Type :=
  | IndexError
  | AssertionError
  | ValueError
  | OverflowError
  | ZeroDivisionError
  | NonFinite
  | OutOfFuel.

Inductive res (A : Type) : Type :=
  | Ok (a : A)
  | Raise (e : exn).
Arguments Ok {A} a.
Arguments Raise {A} e.

#[global] Instance res_ret : MRet res := fun A a => Ok a.
#[global] Instance res_bind : MBind res := fun A B f m =>
  match m with
  | Ok a => f a
  | Raise e => Raise e
  end.

Definition of_option {A} (e : exn) (o : option A) : res A :=
  match o with
  | Some a => Ok a
  | None => Raise e
  end.

(** ** Numbers *)

#[global] Instance Q_inhabited : Inhabited Q := populate 0.

#[global] Instance Qle_decision (x y : Q) : Decision (x <= y) :=
  match Qlt_le_dec y x with
  | left H => right (Qlt_not_le _ _ H)
  | right H => left H
  end.

#[global] Instance Qlt_decision (x y : Q) : Decision (x < y) :=
  match Qlt_le_dec x y with
  | left H => left H
  | right H => right (Qle_not_lt _ _ H)
  end.

(** Python's [round]: round half to even. *)
Definition py_round (q : Q) : Z :=
  let f := Qfloor q in
  match Qcompare (q - inject_Z f) (1 # 2) with
  | Lt => f
  | Gt => (f + 1)%Z
  | Eq => if Z.even f then f else (f + 1)%Z
  end.

(** [a / b] on numpy scalars. A zero divisor gives [nan] (for [0 / 0])
    or [inf] with a warning, and the run goes on. *)
Definition np_div (a b : Q) : res Q :=
  if Qeq_bool b 0 then Raise NonFinite else Ok (a / b).

(** [round(a / b)] for a numpy scalar [a]: [round] raises [ValueError]
    on [nan] and [OverflowError] on [inf]. *)
Definition round_div (a b : Q) : res Z :=
  if Qeq_bool b 0
  then Raise (if Qeq_bool a 0 then ValueError else OverflowError)
  else Ok (py_round (a / b)).

(** ** Arrays *)

(** [l[i]] with Python's negative indices. *)
Definition py_getitem (l : list Q) (i : Z) : res Q :=
  let n := Z.of_nat (length l) in
  let j := if (i <? 0)%Z then (i + n)%Z else i in
  if ((0 <=? j) && (j <? n))%Z
  then of_option IndexError (l !! Z.to_nat j)
  else Raise IndexError.

(** [l[i] = v] for an index produced by [enumerate]. *)
Definition py_setitem (l : list Q) (i : nat) (v : Q) : res (list Q) :=
  if (i <? length l)%nat then Ok (<[i:=v]> l) else Raise IndexError.

(** The element type of an array. [elevation.copy()] keeps it, and a
    value written into an integer array is cut to its integer part. *)
Inductive dtype : Type := float64 | int64.

Definition Qtrunc (q : Q) : Z := Z.quot (Qnum q) (Zpos (Qden q)).

Definition astype (dt : dtype) (v : Q) : Q :=
  match dt with
  | float64 => v
  | int64 => inject_Z (Qtrunc v)
  end.

(** ** numpy: [np.convolve(a, v, 'same')] *)

Fixpoint padd (p q : list Q) : list Q :=
  match p, q with
  | [], _ => q
  | _, [] => p
  | x :: p', y :: q' => (x + y) :: padd p' q'
  end.

(** The full discrete convolution, [sum_j a[k-j] * v[j]]. *)
Fixpoint convolve_full (a v : list Q) : list Q :=
  match a with
  | [] => []
  | x :: a' => padd (map (Qmult x) v) (0 :: convolve_full a' v)
  end.

(** Mode ['same'] keeps [max(M, N)] entries of the full convolution,
    leaving out [n - 1 - n/2] leading ones, [n] the shorter length. *)
Definition np_convolve_same (a v : list Q) : res (list Q) :=
  if ((length a =? 0) || (length v =? 0))%nat then Raise ValueError
  else
    let n := (length a `min` length v)%nat in
    let n_left := (n / 2)%nat in
    Ok (take (length a `max` length v)%nat
             (drop (n - 1 - n_left)%nat (convolve_full a v))).

(** Lines 340-341. *)
Definition diff_kernel : list Q := [1; -1].

Definition diff_signal (elevation : list Q) : res (list Q) :=
  np_convolve_same elevation diff_kernel.

(** ** Interval table *)

Inductive BrunnelKind : Type := bridge | tunnel.

(** A row of the [brunnels] DataFrame; the [length] column of the
    constructed frame is [end_dist - start_dist]. *)
Record Brunnel : Type := mkBrunnel {
  brunnel : BrunnelKind;
  start_dist : Q;
  end_dist : Q
}.

Definition brunnel_length (b : Brunnel) : Q := end_dist b - start_dist b.

(** ** Synthetic construction (lines 337-388) *)

Section Construct.
Variables (elevation distances diff : list Q).
Variables (construct_brunnel_thresh max_bridge_length max_tunnel_length : Q).

(** [for j in range(i + 1, len(elevation))]: the first [j] whose
    elevation satisfies [back ej]; [rest] is [elevation[j:]]. *)
Fixpoint find_return (back : Q -> bool) (rest : list Q) (j : nat) : option nat :=
  match rest with
  | [] => None
  | ej :: rest' => if back ej then Some j else find_return back rest' (S j)
  end.

(** The body of [if elevation[j] >= elevation[i]]: record the span when
    it is short enough. *)
Definition close_span (kind : BrunnelKind) (max_length : Q) (i j : nat)
    (acc : list Brunnel) : res (list Brunnel) :=
  dj ← of_option IndexError (distances !! j);
  di ← of_option IndexError (distances !! i);
  Ok (if decide (dj - di <= max_length) then acc ++ [mkBrunnel kind di dj] else acc).

(** The [while i < len(elevation)] loop; every iteration consumes one
    unit of [fuel]. *)
Fixpoint scan (fuel i : nat) (acc : list Brunnel) : res (list Brunnel) :=
  if (length elevation <=? i)%nat then Ok acc
  else
    match fuel with
    | O => Raise OutOfFuel
    | S fuel' =>
      d ← of_option IndexError (diff !! i);
      ei ← of_option IndexError (elevation !! i);
      if decide (d < construct_brunnel_thresh * -1) then
        match find_return (fun ej => bool_decide (ei <= ej)) (drop (S i) elevation) (S i) with
        | Some j => acc' ← close_span bridge max_bridge_length i j acc; scan fuel' (S j) acc'
        | None => scan fuel' (S i) acc
        end
      else if decide (construct_brunnel_thresh < d) then
        match find_return (fun ej => bool_decide (ej <= ei)) (drop (S i) elevation) (S i) with
        | Some j => acc' ← close_span tunnel max_tunnel_length i j acc; scan fuel' (S j) acc'
        | None => scan fuel' (S i) acc
        end
      else scan fuel' (S i) acc
    end.
End Construct.

Definition construct_candidates (elevation distances : list Q)
    (construct_brunnel_thresh max_bridge_length max_tunnel_length : Q) : res (list Brunnel) :=
  diff ← diff_signal elevation;
  scan elevation distances diff construct_brunnel_thresh max_bridge_length
       max_tunnel_length (length elevation) 0 [].

(** ** Filtering the constructed intervals (lines 390-411) *)

(** [constructed_brunnels[constructed_brunnels.length > distance_delta]] *)
Definition filter_small (distance_delta : Q) (constructed : list Brunnel) : list Brunnel :=
  filter (fun b => distance_delta < brunnel_length b) constructed.

Definition start_in_brunnel (c k : Brunnel) : Prop :=
  start_dist k <= start_dist c /\ start_dist c <= end_dist k.
Definition end_in_brunnel (c k : Brunnel) : Prop :=
  start_dist k <= end_dist c /\ end_dist c <= end_dist k.
Definition around_brunnel (c k : Brunnel) : Prop :=
  start_dist c <= start_dist k /\ end_dist k <= end_dist c.

(** [np.sum(start_in_brunnel | end_in_brunnel | around_brunnel) > 0] *)
Definition overlaps_known (brunnels : list Brunnel) (c : Brunnel) : Prop :=
  Exists (fun k => start_in_brunnel c k \/ end_in_brunnel c k \/ around_brunnel c k) brunnels.

Definition drop_overlapping (brunnels constructed : list Brunnel) : list Brunnel :=
  filter (fun c => ~ overlaps_known brunnels c) constructed.

(** [sort_values("start_dist")]; ties keep their order. *)
Definition start_le (a b : Brunnel) : Prop := start_dist a <= start_dist b.

Definition sort_by_start (l : list Brunnel) : list Brunnel := merge_sort start_le l.

(** Lines 414-417: the known rows followed by the surviving constructed
    rows, sorted. *)
Definition merge_constructed (distance_delta : Q) (brunnels constructed : list Brunnel)
    : list Brunnel :=
  sort_by_start (brunnels ++ drop_overlapping brunnels (filter_small distance_delta constructed)).

(** ** The correction loop (lines 419-490) *)

(** [np.argwhere((x >= start_dists) & (x <= end_dists))] *)
Definition argwhere (x : Q) (start_dists end_dists : list Q) : list nat :=
  (filter (fun p => p.2.1 <= x /\ x <= p.2.2) (imap pair (zip start_dists end_dists))).*1.

(** The straight line through [p1] and [p2], evaluated at [x]
    (lines 483-488). *)
Definition line_through (p1 p2 : Q * Q) (x : Q) : res Q :=
  m ← np_div (p2.2 - p1.2) (p2.1 - p1.1);
  let c := p1.2 - m * p1.1 in
  Ok (m * x + c).

Section Correct.
Variables (start_dists end_dists : list Q) (distance_delta : Q).
(** The element type of the working array. *)
Variable dt : dtype.

(** Lines 441-479: the two endpoint elevations for interval [idx], read
    from the working array [ele_brunnel]. *)
Definition endpoint_elevations (ele_brunnel : list Q) (idx : nat) : res (Q * Q) :=
  sd ← of_option IndexError (start_dists !! idx);
  ed ← of_option IndexError (end_dists !! idx);
  rs ← round_div sd distance_delta;
  let start_idx := (rs - 1)%Z in
  re ← round_div ed distance_delta;
  let end_idx := (re + 1)%Z in
  start_ele ← (if decide (0 < start_idx)%Z
               then e ← py_getitem ele_brunnel start_idx; Ok (Some e)
               else Ok None);
  end_ele ← (if decide (end_idx < Z.of_nat (length ele_brunnel) - 1)%Z
             then e ← py_getitem ele_brunnel end_idx; Ok (Some e)
             else Ok None);
  let start_ele := match start_ele with None => end_ele | Some _ => start_ele end in
  let end_ele := match end_ele with None => start_ele | Some _ => end_ele end in
  match start_ele, end_ele with
  | Some s, Some e => Ok (s, e)
  | _, _ =>
    last_end ← of_option IndexError (last end_dists);
    r ← round_div last_end distance_delta;
    s ← py_getitem ele_brunnel 0;
    e ← py_getitem ele_brunnel r;
    Ok (s, e)
  end.

(** One iteration of [for i, x in enumerate(distances)]. *)
Definition correct_sample (ele_brunnel : list Q) (i : nat) (x : Q) : res (list Q) :=
  let idx := argwhere x start_dists end_dists in
  if decide (length idx <= 1)%nat then
    match idx with
    | [k] =>
      '(start_ele, end_ele) ← endpoint_elevations ele_brunnel k;
      sd ← of_option IndexError (start_dists !! k);
      ed ← of_option IndexError (end_dists !! k);
      v ← line_through (sd - distance_delta, start_ele) (ed + distance_delta, end_ele) x;
      py_setitem ele_brunnel i (astype dt v)
    | _ => Ok ele_brunnel
    end
  else Raise AssertionError.

Fixpoint correct_loop (ele_brunnel : list Q) (i : nat) (xs : list Q) : res (list Q) :=
  match xs with
  | [] => Ok ele_brunnel
  | x :: xs' => ele' ← correct_sample ele_brunnel i x; correct_loop ele' (S i) xs'
  end.
End Correct.

(** The interval set the correction loop runs on. *)
Definition final_brunnels (elevation distances : list Q) (brunnels : list Brunnel)
    (distance_delta : Q) (construct_brunnels : bool)
    (max_bridge_length max_tunnel_length construct_brunnel_thresh : Q) : res (list Brunnel) :=
  if construct_brunnels then
    constructed ← construct_candidates elevation distances construct_brunnel_thresh
                    max_bridge_length max_tunnel_length;
    Ok (merge_constructed distance_delta brunnels constructed)
  else Ok brunnels.

(** [interpolate_brunnels], on values: the array it returns; [dt] is the
    element type of [elevation]. *)
Definition interpolate_brunnels (dt : dtype) (elevation distances : list Q)
    (brunnels : list Brunnel) (distance_delta : Q) (construct_brunnels : bool)
    (max_bridge_length max_tunnel_length construct_brunnel_thresh : Q) : res (list Q) :=
  if ((length brunnels =? 0)%nat && negb construct_brunnels)%bool then Ok elevation
  else
    final ← final_brunnels elevation distances brunnels distance_delta construct_brunnels
              max_bridge_length max_tunnel_length construct_brunnel_thresh;
    correct_loop (start_dist <$> final) (end_dist <$> final) distance_delta dt
                 elevation 0 distances.

(** ** [interpolate_brunnels_old]: the merge pass (lines 221-242) *)

Module Old.

(** A row of the GeoDataFrame: the geometry's coordinates and the two
    projected distances. *)
Record Row : Type := mkRow {
  geom : list (Q * Q);
  start_dist : Q;
  end_dist : Q
}.

Definition set_end_dist (v : Q) (r : Row) : Row :=
  mkRow (geom r) (start_dist r) v.
Definition set_start_dist (v : Q) (r : Row) : Row :=
  mkRow (geom r) v (end_dist r).
Definition set_geom (g : list (Q * Q)) (r : Row) : Row :=
  mkRow g (start_dist r) (end_dist r).

(** [brunnels.loc[i, col] = f(brunnels.loc[i, col])] *)
Definition loc_update (i : nat) (f : Row -> Row) (table : list Row) : list Row :=
  match table !! i with
  | Some r => <[i:=f r]> table
  | None => table
  end.

Definition start_le (a b : Row) : Prop := start_dist a <= start_dist b.

(** Lines 222-223: [sort_values(by=['start_dist'])], [reset_index]. *)
Definition sort_by_start (table : list Row) : list Row := merge_sort start_le table.

(** The body of the merge loop for the row [brunnel] yielded at label
    [index]; the state is the table and [drop_idx]. *)
Definition merge_step (merge_distance : Q) (st : list Row * list nat)
    (index : nat) (brunnel : Row) : list Row * list nat :=
  let '(table, drop_idx) := st in
  match index, table !! (index - 1)%nat with
  | S _, Some prev =>
    if decide (start_dist brunnel <= end_dist prev + merge_distance) then
      let table := loc_update (index - 1) (set_end_dist (end_dist brunnel)) table in
      let table := loc_update (index - 1) (fun r => set_geom (geom r ++ geom brunnel) r) table in
      let prev' := default prev (table !! (index - 1)%nat) in
      let table := loc_update index (set_start_dist (start_dist prev')) table in
      let table := loc_update index (fun _r => set_geom (geom prev' ++ geom brunnel) _r) table in
      (table, drop_idx ++ [index])
    else st
  | _, _ => st
  end.

(** [for index, brunnel in brunnels.iterrows()]: the rows yielded are
    those the table had when the loop started. *)
Fixpoint merge_loop (merge_distance : Q) (st : list Row * list nat)
    (index : nat) (rows : list Row) : list Row * list nat :=
  match rows with
  | [] => st
  | brunnel :: rows' =>
    merge_loop merge_distance (merge_step merge_distance st index brunnel) (S index) rows'
  end.

(** [brunnels.drop(drop_idx)] *)
Definition drop_rows (drop_idx : list nat) (table : list Row) : list Row :=
  (filter (fun p => p.1 ∉ drop_idx) (imap pair table)).*2.

Definition merge_pass (merge_distance : Q) (table : list Row) : list Row :=
  let '(table', drop_idx) := merge_loop merge_distance (table, []) 0 table in
  drop_rows drop_idx table'.

Definition phase_a_merge (merge_distance : Q) (table : list Row) : list Row :=
  merge_pass merge_distance (sort_by_start table).

End Old.

(** ** [adjust_forest_height] (lines 516-520) *)

Definition Qsum (l : list Q) : Q := foldr Qplus 0 l.

Definition mean (w : list Q) : Q := Qsum w / inject_Z (Z.of_nat (length w)).

(** The sample variance ([ddof = 1]) of a window. *)
Definition sample_var (w : list Q) : Q :=
  Qsum ((fun x => (x - mean w) * (x - mean w)) <$> w) / inject_Z (Z.of_nat (length w) - 1).

(** [np.clip(x, lo, hi)] on a pandas [Series] is [Series.clip(lo, hi)],
    which puts its two bounds in order before it clamps. *)
Definition np_clip (x lo hi : Q) : Q :=
  let lower := Qmin lo hi in
  let upper := Qmax lo hi in
  Qmin (Qmax x lower) upper.

Section Forest.
(** What [elevation.rolling(window_size).std()] holds at position [i]
    where it is a number: the standard deviation of the [window_size]
    samples up to [i], [std_at elevation window_size i]. pandas updates a
    running sum from window to window, so the float it returns carries
    the rounding of the windows before it; the value is a parameter. *)
Variable std_at : list Q -> nat -> nat -> Q.

(** [elevation.rolling(window_size).std()]: [None] is NaN, at the
    positions with fewer than [window_size] samples behind them, and
    everywhere for a window of fewer than two samples. *)
Definition rolling_std (window_size : nat) (elevation : list Q) : list (option Q) :=
  imap (fun i _ =>
          if decide (2 <= window_size /\ window_size <= S i)%nat
          then Some (std_at elevation window_size i)
          else None)
       elevation.

(** Line 518 at one position: [t > std_thresh] is false for NaN. *)
Definition adjust_sample (std_thresh sub_factor clip : Q) (e : Q) (t : option Q) : Q :=
  match t with
  | Some s => if decide (std_thresh < s) then e - np_clip (s * sub_factor) 0 clip else e
  | None => e
  end.

Definition adjust_forest_height (elevation : list Q) (window_size : nat)
    (std_thresh sub_factor clip : Q) : list Q :=
  zip_with (adjust_sample std_thresh sub_factor clip) elevation
           (rolling_std window_size elevation).
End Forest.

(** The standard deviation in exact arithmetic: the square root of the
    sample variance of the window that ends at position [i]. *)
Definition window_std (sqrt : Q -> Q) (elevation : list Q) (window_size i : nat) : Q :=
  sqrt (sample_var (take window_size (drop (S i - window_size) elevation))).

(** A stand-in square root for evaluating the functions above: the
    integer square roots of the reduced numerator and denominator, which
    is the square root on squares of rationals. *)
Definition Qsqrt_floor (q : Q) : Q :=
  let r := Qred q in
  Qmake (Z.sqrt (Qnum r)) (Pos.sqrt (Qden r)).

(** ** [resample_ele] (lines 544-551) *)

(** [np.arange(0, stop, step)]: [ceil(stop / step)] values [k * step].
    For a zero step the quotient is what fails: Python numbers raise
    [ZeroDivisionError]; a numpy scalar [stop] gives [inf] or [nan], for
    which [np.arange] raises [ValueError]. [zero_step] is the one of the
    two that applies at the call. *)
Definition np_arange0 (zero_step : exn) (stop step : Q) : res (list Q) :=
  if Qeq_bool step 0 then Raise zero_step
  else Ok ((fun k => inject_Z (Z.of_nat k) * step) <$> seq 0 (Z.to_nat (Qceiling (stop / step)))).

(** The segment search and evaluation of [np.interp] for [x] not below
    the first sample point: the segment is the last one that starts at or
    before [x]. *)
Fixpoint interp_scan (x : Q) (xp fp : list Q) : res Q :=
  match xp, fp with
  | [_], [f0] => Ok f0
  | x0 :: ((x1 :: _) as xp'), f0 :: ((f1 :: _) as fp') =>
    if decide (x1 <= x) then interp_scan x xp' fp'
    else if Qeq_bool x0 x then Ok f0
    else Ok ((f1 - f0) / (x1 - x0) * (x - x0) + f0)
  | _, _ => Raise ValueError
  end.

(** [np.interp(x, xp, fp)] for increasing [xp]. *)
Definition np_interp (x : Q) (xp fp : list Q) : res Q :=
  match head xp, head fp, last xp, last fp with
  | Some x0, Some f0, Some xn, Some fn =>
    if decide (length xp = length fp) then
      if decide (xn < x) then Ok fn
      else if decide (x < x0) then Ok f0
      else interp_scan x xp fp
    else Raise ValueError
  | _, _, _, _ => Raise ValueError
  end.

Fixpoint res_mapM {A B} (f : A -> res B) (l : list A) : res (list B) :=
  match l with
  | [] => Ok []
  | a :: l' => b ← f a; bs ← res_mapM f l'; Ok (b :: bs)
  end.

Definition resample_ele (elevation distances : list Q) (distance : Q)
    : res (list Q * list Q) :=
  total ← of_option IndexError (last distances);
  distances_interpolated ← np_arange0 ValueError total distance;
  reached ← of_option IndexError (last distances_interpolated);
  let distances_interpolated :=
    if decide (reached <= total) then distances_interpolated ++ [total]
    else distances_interpolated in
  elevation_interpolated ← res_mapM (fun x => np_interp x distances elevation)
                             distances_interpolated;
  Ok (distances_interpolated, elevation_interpolated).

(** ** The resampling grid in binary64 (lines 544-547)

    The numbers of the code are binary64 floats; what rounding does to
    the grid is followed on Rocq's primitive floats. *)

Module Float64.

(** The rational a finite float stands for. *)
Definition to_Q (f : float) : option Q :=
  match Prim2SF f with
  | S754_zero _ => Some 0
  | S754_finite s m e => Some ((if s then -1 else 1) * inject_Z (Zpos m) * 2 ^ e)
  | _ => None
  end.

Definition of_nat (k : nat) : float := PrimFloat.of_uint63 (Uint63.of_Z (Z.of_nat k)).

(** [np.arange(0, stop, step)]: the length is the ceiling of the
    rounded quotient [stop / step], entry [k] is the rounded product
    [k * step]. [None] stands for a quotient that is not finite. *)
Definition np_arange0 (stop step : float) : option (list float) :=
  q ← to_Q (stop / step)%float;
  Some ((fun k => (of_nat k * step)%float) <$> seq 0 (Z.to_nat (Qceiling q))).


End Float64.

(** ** Arrays as objects: which arrays the correction stages write *)

Module Store.

(** The arrays alive in the interpreter, by object identity. *)
Abbreviation store := (gmap nat (list Q)).

(** [elevation.copy()]: a new object holding the same values. *)
Definition copy (h : store) (l : nat) : res (nat * store) :=
  a ← of_option IndexError (h !! l);
  let l' := fresh (dom h) in
  Ok (l', <[l':=a]> h).

Section Loop.
Variables (start_dists end_dists : list Q) (distance_delta : Q) (dt : dtype).

(** The loop of lines 423-488, reading and writing the object
    [ele_brunnel]. *)
Fixpoint correct_loop (h : store) (ele_brunnel : nat) (i : nat) (xs : list Q) : res store :=
  match xs with
  | [] => Ok h
  | x :: xs' =>
    a ← of_option IndexError (h !! ele_brunnel);
    a' ← correct_sample start_dists end_dists distance_delta dt a i x;
    correct_loop (<[ele_brunnel:=a']> h) ele_brunnel (S i) xs'
  end.
End Loop.

(** [interpolate_brunnels] on objects: [elevation] and [distances] name
    arrays of the store; the result names the returned array. *)
Definition interpolate_brunnels (dt : dtype) (h : store) (elevation distances : nat)
    (brunnels : list Brunnel) (distance_delta : Q) (construct_brunnels : bool)
    (max_bridge_length max_tunnel_length construct_brunnel_thresh : Q)
    : res (nat * store) :=
  ele ← of_option IndexError (h !! elevation);
  dist ← of_option IndexError (h !! distances);
  if ((length brunnels =? 0)%nat && negb construct_brunnels)%bool then Ok (elevation, h)
  else
    final ← final_brunnels ele dist brunnels distance_delta construct_brunnels
              max_bridge_length max_tunnel_length construct_brunnel_thresh;
    '(ele_brunnel, h1) ← copy h elevation;
    h2 ← correct_loop (start_dist <$> final) (end_dist <$> final)
           distance_delta dt h1 ele_brunnel 0 dist;
    Ok (ele_brunnel, h2).

(** [adjust_forest_height] on objects, for a float array (lines
    516-520): [pd.Series(elevation)] wraps the array without copying it,
    the assignment of line 518 writes the new values into it, and
    [elevation.values] is that array again. *)
Definition adjust_forest_height (std_at : list Q -> nat -> nat -> Q) (h : store)
    (elevation : nat) (window_size : nat) (std_thresh sub_factor clip : Q)
    : res (nat * store) :=
  ele ← of_option IndexError (h !! elevation);
  Ok (elevation,
      <[elevation:=adjust_forest_height std_at ele window_size std_thresh sub_factor clip]> h).

Section Smooth.
(** scipy's [savgol_filter(x, window_length, polyorder, mode=mode)]: it
    returns the filtered data in an array of its own. *)
Variable Mode : Type.
Variable savgol_filter : list Q -> nat -> nat -> Mode -> res (list Q).

(** [smooth_ele] on objects (lines 522-524). *)
Definition smooth_ele (h : store) (elevation : nat) (window_size poly_order : nat)
    (mode : Mode) : res (nat * store) :=
  ele ← of_option IndexError (h !! elevation);
  out ← savgol_filter ele window_size poly_order mode;
  let r := fresh (dom h) in
  Ok (r, <[r:=out]> h).
End Smooth.

End Store.

(** ** [sample_coords] (lines 48-121) *)

(** The four [if]s of lines 76-95 as [(row_from, row_to, col_from,
    col_to)]: they are tried in order and a later one overwrites an
    earlier one; [None] stands for offsets that were never assigned. *)
Definition window_offsets (p_x p_y r_x r_y : Q) : option (Z * Z * Z * Z) :=
  let o := None in
  let o := if decide (p_x <= r_x /\ p_y <= r_y) then Some (-1, 2, -2, 1)%Z else o in
  let o := if decide (r_x <= p_x /\ p_y <= r_y) then Some (-1, 2, -1, 2)%Z else o in
  let o := if decide (r_x <= p_x /\ r_y <= p_y) then Some (-2, 1, -1, 2)%Z else o in
  let o := if decide (p_x <= r_x /\ r_y <= p_y) then Some (-2, 1, -2, 1)%Z else o in
  o.

(** A bound of a Python slice over [n] items: negative bounds count from
    the end, and bounds are clamped to [0 .. n]. *)
Definition slice_bound (n i : Z) : Z :=
  if (i <? 0)%Z then Z.max 0 (i + n) else Z.min i n.

(** [l[a:b]] *)
Definition py_slice {A} (l : list A) (a b : Z) : list A :=
  let n := Z.of_nat (length l) in
  take (Z.to_nat (slice_bound n b - slice_bound n a)) (drop (Z.to_nat (slice_bound n a)) l).

(** [range(a, b)] *)
Definition py_range (a b : Z) : list Z :=
  (fun k => (a + Z.of_nat k)%Z) <$> seq 0 (Z.to_nat (b - a)).

(** [elev[row, col]] on a two-dimensional array given by its rows. *)
Definition py_getitem2 (elev : list (list Q)) (row col : Z) : res Q :=
  let n := Z.of_nat (length elev) in
  let r := if (row <? 0)%Z then (row + n)%Z else row in
  if ((0 <=? r) && (r <? n))%Z
  then line ← of_option IndexError (elev !! Z.to_nat r); py_getitem line col
  else Raise IndexError.

(** What [sample_coords] can raise: the exceptions of the arrays, and
    the use of a local variable that no branch assigned. *)
Inductive sample_exn : Type :=
  | UnboundLocalError
  | Builtin (e : exn).

Section Sampler.
(** The raster: its band, [dem.index], [dem.xy], and the fitted bicubic
    surface of [interpolate.interp2d] evaluated at a point. *)
Variable elev : list (list Q).
Variable dem_index : Q -> Q -> Z * Z.
Variable dem_xy : Z -> Z -> Q * Q.
Variable interp2d : list Q -> list Q -> list Q -> Q -> Q -> res Q.

(** Line 103-104: [elev[row_from:row_to + 1, col_from:col_to + 1].flatten()] *)
Definition support_values (row_from row_to col_from col_to : Z) : list Q :=
  concat ((fun line => py_slice line col_from (col_to + 1)%Z)
            <$> py_slice elev row_from (row_to + 1)%Z).

(** Lines 107-113: the coordinates of the cells of the window, row by
    row. *)
Definition support_coords (row_from row_to col_from col_to : Z) : list (Q * Q) :=
  r ← py_range row_from (row_to + 1)%Z;
  c ← py_range col_from (col_to + 1)%Z;
  [dem_xy r c].

Definition sample_coords (p_x p_y : Q) (interpolated : bool) : sample_exn + Q :=
  let '(row, col) := dem_index p_x p_y in
  let lift (r : res Q) : sample_exn + Q :=
    match r with Ok v => inr v | Raise e => inl (Builtin e) end in
  if negb interpolated then lift (py_getitem2 elev row col)
  else
    let '(r_x, r_y) := dem_xy row col in
    match window_offsets p_x p_y r_x r_y with
    | None => inl UnboundLocalError
    | Some (row_from, row_to, col_from, col_to) =>
      let row_from := (row_from + row)%Z in
      let row_to := (row_to + row)%Z in
      let col_from := (col_from + col)%Z in
      let col_to := (col_to + col)%Z in
      let z := support_values row_from row_to col_from col_to in
      let coords := support_coords row_from row_to col_from col_to in
      lift (interp2d coords.*1 coords.*2 z p_x p_y)
    end.

(** [sample_point]: the coordinates of the point, handed on. *)
Definition sample_point (point : Q * Q) (interpolated : bool) : sample_exn + Q :=
  sample_coords point.1 point.2 interpolated.
End Sampler.

(** ** [elevation_profile] (lines 141-164) *)

Section Profile.
(** The line: [line.length], [line.interpolate], [line.boundary[1]];
    and [self.sample_coords]. *)
Variable line_length : Q.
Variable line_interpolate : Q -> Q * Q.
Variable line_end : Q * Q.
Variable sample : Q -> Q -> bool -> sample_exn + Q.

(** The loop of lines 156-162 over the sample points. *)
Fixpoint sample_points_loop (interpolated : bool) (sample_points : list (Q * Q))
    : sample_exn + (list Q * list Q * list Q) :=
  match sample_points with
  | [] => inr ([], [], [])
  | p :: rest =>
    match sample p.1 p.2 interpolated with
    | inl e => inl e
    | inr ele =>
      match sample_points_loop interpolated rest with
      | inl e => inl e
      | inr (xs, ys, eles) => inr (p.1 :: xs, p.2 :: ys, ele :: eles)
      end
    end
  end.

Definition elevation_profile (distance : Q) (interpolated : bool)
    : sample_exn + (list Q * list Q * list Q * list Q) :=
  match np_arange0 ZeroDivisionError line_length distance with
  | Raise e => inl (Builtin e)
  | Ok distances =>
    let sample_points := (line_interpolate <$> distances) ++ [line_end] in
    match sample_points_loop interpolated sample_points with
    | inl e => inl e
    | inr (xs, ys, eles) => inr (xs, ys, distances ++ [line_length], eles)
    end
  end.
End Profile.

(** ** [interpolate_brunnels_old]: projecting, merging, filtering
       (lines 199-248) *)

Section OldPhaseA.
(** [trip_geom.project(Point(c)).iloc[0]] and the geometric length of a
    row, [GeoSeries.length]. *)
Variable project : Q * Q -> Q.
Variable geom_length : list (Q * Q) -> Q.

(** Lines 205-219 for one row. *)
Definition project_row (coords : list (Q * Q)) : res Old.Row :=
  start_point ← of_option IndexError (head coords);
  end_point ← of_option IndexError (last coords);
  let start_dist := project start_point in
  let end_dist := project end_point in
  let '(start_point, end_point) :=
    if decide (end_dist < start_dist) then (end_point, start_point)
    else (start_point, end_point) in
  Ok (Old.mkRow coords (project start_point) (project end_point)).

(** Lines 203-248: the table the correction loop of the old function
    runs on. *)
Definition normalize_brunnels (geoms : list (list (Q * Q)))
    (merge_distance filter_brunnel_length : Q) : res (list Old.Row) :=
  rows ← res_mapM project_row geoms;
  let merged := Old.phase_a_merge merge_distance rows in
  Ok (filter (fun r => filter_brunnel_length < geom_length (Old.geom r)) merged).
End OldPhaseA.

(** ** [ele_to_incl] (lines 569-581) *)

Section Inclination.
(** [np.arctan] *)
Variable arctan : Q -> Q.

(** The body of the loop at index [i]. The quotient is taken on numpy
    scalars, the elements of the arrays [resample_ele] returns; for
    Python lists a zero run raises [ZeroDivisionError] at the same
    place. *)
Definition slope_at (elevation distances : list Q) (degrees : bool) (i : nat) : res Q :=
  e1 ← of_option IndexError (elevation !! S i);
  e0 ← of_option IndexError (elevation !! i);
  let rise := e1 - e0 in
  d1 ← of_option IndexError (distances !! S i);
  d0 ← of_option IndexError (distances !! i);
  let run := d1 - d0 in
  q ← np_div rise run;
  Ok (if degrees then arctan q else q * 1000).

(** [for i in range(len(elevation) - 1)] *)
Definition ele_to_incl (elevation distances : list Q) (degrees : bool) : res (list Q) :=
  res_mapM (slope_at elevation distances degrees) (seq 0 (length elevation - 1)).
End Inclination.

(** ** Vocabulary of the statements *)

(** The sample distance [x] lies in the closed interval of [b]: the test
    of line 427. *)
Definition covers (x : Q) (b : Brunnel) : Prop :=
  start_dist b <= x /\ x <= end_dist b.

(** Two intervals that share no point. *)
Definition brunnels_disjoint (a b : Brunnel) : Prop :=
  end_dist a < start_dist b \/ end_dist b < start_dist a.

(** Three profile points on one straight line. *)
Definition collinear (p1 p2 p3 : Q * Q) : Prop :=
  (p2.2 - p1.2) * (p3.1 - p2.1) == (p3.2 - p2.2) * (p2.1 - p1.1).

(** The invariant of the construction scan: the recorded spans follow
    one another, each ending at a sample before the current index. *)
Definition span_before (a b : Brunnel) : Prop := end_dist a < start_dist b.

Definition scan_inv (distances : list Q) (i : nat) (acc : list Brunnel) : Prop :=
  ForallOrdPairs span_before acc /\
  Forall (fun c => exists b, (b < i)%nat /\ distances !! b = Some (end_dist c)) acc.

(** The value [v] the loop writes for a sample at distance [x] covered by
    exactly one interval, [ele_brunnel] being the working array when the
    sample is reached: the line through
    [(start_dist - distance_delta, start_ele)] and
    [(end_dist + distance_delta, end_ele)] at [x]. *)
Definition sample_corrected (start_dists end_dists : list Q) (distance_delta : Q)
    (ele_brunnel : list Q) (x v : Q) : Prop :=
  exists k sd ed start_ele end_ele,
    argwhere x start_dists end_dists = [k] /\
    start_dists !! k = Some sd /\ end_dists !! k = Some ed /\
    endpoint_elevations start_dists end_dists distance_delta ele_brunnel k
      = Ok (start_ele, end_ele) /\
    line_through (sd - distance_delta, start_ele) (ed + distance_delta, end_ele) x = Ok v.

(** The working array when sample [n] is reached: the output before
    position [n], the input from there on. *)
Definition working_array (elevation out : list Q) (n : nat) (ele_brunnel : list Q) : Prop :=
  length ele_brunnel = length elevation /\
  forall j, ele_brunnel !! j = if decide (j < n)%nat then out !! j else elevation !! j.


(** The grid [0, step, 2 * step, ...] of [n] points. *)
Definition grid (step : Q) (n : nat) : list Q :=
  (fun k => inject_Z (Z.of_nat k) * step) <$> seq 0 n.

(** Row [i] of the sorted table starts within [merge_distance] of the end
    of the row before it. *)
Definition merges_into_previous (merge_distance : Q) (table : list Old.Row) (i : nat) : Prop :=
  match i with
  | O => False
  | S i' =>
    match table !! i', table !! i with
    | Some prev, Some cur => Old.start_dist cur <= Old.end_dist prev + merge_distance
    | _, _ => False
    end
  end.

(** A retained row after the merge pass: it has taken the end and the
    coordinates of the row after it when that row merges into it. *)
Definition merged_row (merge_distance : Q) (r : Old.Row) (next : option Old.Row) : Old.Row :=
  match next with
  | Some r' =>
    if decide (Old.start_dist r' <= Old.end_dist r + merge_distance)
    then Old.mkRow (Old.geom r ++ Old.geom r') (Old.start_dist r) (Old.end_dist r')
    else r
  | None => r
  end.

#[global] Instance merges_into_previous_decision (merge_distance : Q)
    (table : list Old.Row) (i : nat) :
  Decision (merges_into_previous merge_distance table i).
Proof.
  destruct i as [|i']; cbn; [apply _|].
  destruct (table !! i'); [|apply _]. destruct (table !! S i'); apply _.
Defined.

(** The merge pass in closed form: the rows that do not merge into their
    predecessor, in order, each with the end of its successor when that
    one merges into it. *)
Definition merge_pass_closed (merge_distance : Q) (table : list Old.Row) : list Old.Row :=
  (fun p : nat * Old.Row => merged_row merge_distance p.2 (table !! S p.1))
    <$> filter (fun p : nat * Old.Row => ~ merges_into_previous merge_distance table p.1)
               (imap pair table).

(** The invariant of the merge loop before the row at index [k]: rows
    from [k] on are untouched, row [k - 1] still has its own end, the
    rows marked for dropping are those before [k] that merge into their
    predecessor, and a row that does not is in its final form once its
    successor has been visited. *)
Definition merge_inv (merge_distance : Q) (orig : list Old.Row) (k : nat)
    (table : list Old.Row) (drop_idx : list nat) : Prop :=
  length table = length orig /\
  (forall j, (k <= j)%nat -> table !! j = orig !! j) /\
  (forall j r t, S j = k -> orig !! j = Some r -> table !! j = Some t ->
     Old.end_dist t = Old.end_dist r) /\
  (forall i, i ∈ drop_idx <-> (i < k)%nat /\ merges_into_previous merge_distance orig i) /\
  (forall j r, orig !! j = Some r -> ~ merges_into_previous merge_distance orig j ->
     (S j < k)%nat -> table !! j = Some (merged_row merge_distance r (orig !! S j))) /\
  (forall j r, orig !! j = Some r -> ~ merges_into_previous merge_distance orig j ->
     S j = k -> table !! j = Some r).

(** What the construction scan records: a span from sample [i] to the
    first later sample [j] at which the elevation is back at the level of
    sample [i], no longer than the limit of its kind. *)
Definition constructed_span (elevation distances diff : list Q)
    (construct_brunnel_thresh max_bridge_length max_tunnel_length : Q) (c : Brunnel) : Prop :=
  exists i j d ei ej,
    (i < j)%nat /\
    distances !! i = Some (start_dist c) /\ distances !! j = Some (end_dist c) /\
    diff !! i = Some d /\ elevation !! i = Some ei /\ elevation !! j = Some ej /\
    match brunnel c with
    | bridge =>
      d < construct_brunnel_thresh * -1 /\ ei <= ej /\
      (forall m em, (i < m < j)%nat -> elevation !! m = Some em -> em < ei) /\
      end_dist c - start_dist c <= max_bridge_length
    | tunnel =>
      ~ d < construct_brunnel_thresh * -1 /\ construct_brunnel_thresh < d /\ ej <= ei /\
      (forall m em, (i < m < j)%nat -> elevation !! m = Some em -> ei < em) /\
      end_dist c - start_dist c <= max_tunnel_length
    end.

(** * Properties *)

(** ** The result monad *)

Lemma bind_Ok {A B} (m : res A) (f : A -> res B) (b : B) :
  m ≫= f = Ok b <-> exists a, m = Ok a /\ f a = Ok b.
Proof.
  destruct m as [a|e]; cbn; split.
  - intros H. exists a. split; [reflexivity | exact H].
  - intros (a' & [= <-] & H). exact H.
  - discriminate.
  - intros (a' & H & _). discriminate.
Qed.

Lemma of_option_Ok {A} (e : exn) (o : option A) (a : A) :
  of_option e o = Ok a <-> o = Some a.
Proof. destruct o; cbn; split; congruence. Qed.

Lemma bind_Raise {A B} (m : res A) (f : A -> res B) (e : exn) :
  m ≫= f = Raise e <-> m = Raise e \/ exists a, m = Ok a /\ f a = Raise e.
Proof.
  destruct m as [a|e']; cbn; split.
  - intros H. right. exists a. split; [reflexivity | exact H].
  - intros [H | (a' & [= <-] & H)]; [discriminate | exact H].
  - intros [= ->]. left. reflexivity.
  - intros [[= ->] | (a' & H & _)]; [reflexivity | discriminate].
Qed.

Lemma of_option_Raise {A} (e e' : exn) (o : option A) :
  of_option e o = Raise e' -> e' = e.
Proof. destruct o; cbn; congruence. Qed.

Lemma np_div_Raise (a b : Q) (e : exn) : np_div a b = Raise e -> e = NonFinite /\ b == 0.
Proof.
  unfold np_div. destruct (Qeq_bool b 0) eqn:E; [|discriminate].
  intros [= <-]. split; [reflexivity | apply Qeq_bool_iff, E].
Qed.

Lemma round_div_Raise (a b : Q) (e : exn) :
  round_div a b = Raise e -> (e = ValueError \/ e = OverflowError) /\ b == 0.
Proof.
  unfold round_div. destruct (Qeq_bool b 0) eqn:E; [|discriminate].
  intros [= <-]. split; [destruct (Qeq_bool a 0); auto | apply Qeq_bool_iff, E].
Qed.

Lemma round_div_Ok (a b : Q) :
  ~ b == 0 -> round_div a b = Ok (py_round (a / b)).
Proof.
  intros Hb. unfold round_div. destruct (Qeq_bool b 0) eqn:E; [|reflexivity].
  apply Qeq_bool_iff in E. contradiction.
Qed.

Lemma py_getitem_Raise (l : list Q) (i : Z) (e : exn) :
  py_getitem l i = Raise e -> e = IndexError.
Proof.
  unfold py_getitem. destruct (_ && _)%bool; [apply of_option_Raise | congruence].
Qed.

Lemma py_setitem_Raise (l : list Q) (i : nat) (v : Q) (e : exn) :
  py_setitem l i v = Raise e -> e = IndexError.
Proof. unfold py_setitem. destruct (_ <? _)%nat; congruence. Qed.

(** Peel the binds of a hypothesis [m ≫= f = Ok b]. *)
Ltac inv_res H :=
  repeat match type of H with
         | _ ≫= _ = Ok _ =>
           let a := fresh "a" in
           let Ha := fresh "Ha" in
           apply bind_Ok in H as (a & Ha & H)
         end.

(** ** The first-difference signal *)

Lemma lookup_total_cons_S (x : Q) (l : list Q) (k : nat) :
  (x :: l) !!! S k = l !!! k.
Proof. reflexivity. Qed.

Lemma padd_lookup_total (p q : list Q) (k : nat) :
  padd p q !!! k == p !!! k + q !!! k.
Proof.
  revert q k. induction p as [|x p IH]; intros [|y q] [|k]; cbn;
    rewrite ?lookup_total_cons_S, ?lookup_total_nil; cbn; try ring.
  apply IH.
Qed.

Lemma length_padd (p q : list Q) :
  length (padd p q) = (length p `max` length q)%nat.
Proof.
  revert q. induction p as [|x p IH]; intros [|y q]; cbn; auto.
Qed.

Lemma length_convolve_diff (a : list Q) :
  a <> [] -> length (convolve_full a diff_kernel) = S (length a).
Proof.
  induction a as [|x a IH]; [congruence|]. intros _.
  cbn [convolve_full]. rewrite length_padd. cbn [length map diff_kernel].
  destruct a as [|y a]; [reflexivity|].
  rewrite IH by discriminate. cbn [length]. lia.
Qed.

(** Entry [k] of the full convolution with [[1; -1]] is the difference
    to the predecessor, the predecessor of the first entry being [0]. *)
Lemma convolve_diff_lookup (a : list Q) (k : nat) :
  convolve_full a diff_kernel !!! k ==
  a !!! k - match k with O => 0 | S k' => a !!! k' end.
Proof.
  revert k. induction a as [|x a IH]; intros k.
  - cbn. destruct k; rewrite ?lookup_total_nil; cbn; ring.
  - cbn [convolve_full]. rewrite padd_lookup_total.
    destruct k as [|[|k]]; cbn [map diff_kernel]; rewrite ?lookup_total_cons_S.
    + cbn. ring.
    + rewrite (IH 0%nat). cbn. ring.
    + rewrite (IH (S k)), lookup_total_nil. cbn. ring.
Qed.

Lemma diff_signal_Ok (elevation : list Q) :
  (2 <= length elevation)%nat ->
  diff_signal elevation = Ok (take (length elevation) (convolve_full elevation diff_kernel)).
Proof.
  intros Hlen. unfold diff_signal, np_convolve_same.
  destruct (length elevation) as [|[|n]] eqn:E; [lia | lia |].
  cbn [Nat.eqb orb length diff_kernel].
  replace (S (S n) `min` 2)%nat with 2%nat by lia.
  replace (S (S n) `max` 2)%nat with (S (S n)) by lia.
  reflexivity.
Qed.

(** The signal as the code computes it: for a profile of at least two
    samples it has the length of the elevation array, its entry
    [i >= 1] is [elevation[i] - elevation[i-1]], and its first entry is
    [elevation[0]] itself, the convolution padding with zero. *)
Lemma diff_signal_entries (elevation : list Q) :
  (2 <= length elevation)%nat ->
  exists d, diff_signal elevation = Ok d /\
    length d = length elevation /\
    d !!! 0%nat == elevation !!! 0%nat /\
    forall i, (1 <= i < length elevation)%nat ->
      d !!! i == elevation !!! i - elevation !!! (i - 1)%nat.
Proof.
  intros Hlen. eexists. split; [apply diff_signal_Ok, Hlen|].
  assert (Hne : elevation <> []) by (destruct elevation; [cbn in Hlen; lia | discriminate]).
  split; [|split].
  - rewrite length_take, length_convolve_diff by assumption. lia.
  - rewrite lookup_total_take_lt by lia. rewrite convolve_diff_lookup. ring.
  - intros i Hi. rewrite lookup_total_take_lt by lia. rewrite convolve_diff_lookup.
    destruct i as [|i]; [lia|]. replace (S i - 1)%nat with i by lia. reflexivity.
Qed.

(** For a one-sample profile the signal is longer than the profile. *)
Lemma diff_signal_single_sample :
  exists d, diff_signal [5] = Ok d /\ length d = 2%nat.
Proof. eexists. split; reflexivity. Qed.

(** ** C5, C4: which constructed intervals survive *)

Lemma elem_of_filter_small (distance_delta : Q) (constructed : list Brunnel) (c : Brunnel) :
  c ∈ filter_small distance_delta constructed <->
  distance_delta < brunnel_length c /\ c ∈ constructed.
Proof.
  unfold filter_small.
  apply (list_elem_of_filter (fun b => distance_delta < brunnel_length b)).
Qed.

Lemma elem_of_drop_overlapping (brunnels constructed : list Brunnel) (c : Brunnel) :
  c ∈ drop_overlapping brunnels constructed <->
  ~ overlaps_known brunnels c /\ c ∈ constructed.
Proof.
  unfold drop_overlapping.
  apply (list_elem_of_filter (fun b => ~ overlaps_known brunnels b)).
Qed.

Lemma merge_constructed_Permutation (distance_delta : Q) (brunnels constructed : list Brunnel) :
  merge_constructed distance_delta brunnels constructed
  ≡ₚ brunnels ++ drop_overlapping brunnels (filter_small distance_delta constructed).
Proof. unfold merge_constructed, sort_by_start. apply merge_sort_Permutation. Qed.

Lemma elem_of_merge_constructed (distance_delta : Q) (brunnels constructed : list Brunnel)
    (b : Brunnel) :
  b ∈ merge_constructed distance_delta brunnels constructed <->
  b ∈ brunnels \/
  (~ overlaps_known brunnels b /\ distance_delta < brunnel_length b /\ b ∈ constructed).
Proof.
  rewrite merge_constructed_Permutation, elem_of_app, elem_of_drop_overlapping,
    elem_of_filter_small.
  tauto.
Qed.

(** [C5], as the code has it: a candidate no longer than [distance_delta]
    is discarded, one strictly longer is kept by the length filter and
    reaches the final set unless it overlaps a known interval. *)
Theorem filter_small_strict (distance_delta : Q) (brunnels constructed : list Brunnel)
    (c : Brunnel) :
  c ∈ constructed ->
  (brunnel_length c <= distance_delta -> c ∉ filter_small distance_delta constructed) /\
  (distance_delta < brunnel_length c ->
     c ∈ filter_small distance_delta constructed /\
     (~ overlaps_known brunnels c ->
        c ∈ merge_constructed distance_delta brunnels constructed)).
Proof.
  intros Hc. split.
  - intros Hle Hin. apply elem_of_filter_small in Hin as [Hlt _]. lra.
  - intros Hlt. split.
    + apply elem_of_filter_small. auto.
    + intros Hno. apply elem_of_merge_constructed. right. auto.
Qed.

Lemma filter_small_strict_witness :
  let c := mkBrunnel tunnel 40 70 in
  let constructed := [mkBrunnel bridge 0 30; c; mkBrunnel tunnel 80 90] in
  (brunnel_length c <= 10 -> c ∉ filter_small 10 constructed) /\
  (10 < brunnel_length c ->
     c ∈ filter_small 10 constructed /\
     (~ overlaps_known [mkBrunnel bridge 12 14] c ->
        c ∈ merge_constructed 10 [mkBrunnel bridge 12 14] constructed)).
Proof.
  apply (filter_small_strict 10 [mkBrunnel bridge 12 14]
           [mkBrunnel bridge 0 30; mkBrunnel tunnel 40 70; mkBrunnel tunnel 80 90]
           (mkBrunnel tunnel 40 70)).
  apply list_elem_of_In. simpl. tauto.
Defined.

(** [C5], as stated, fails: the scan yields a candidate whose length is
    exactly [distance_delta], and the filter drops it. *)
Lemma filter_small_drops_equal_length :
  exists c,
    construct_candidates [10; 0; 10] [0; 10; 20] 3 300 300 = Ok [c] /\
    10 <= brunnel_length c /\
    ~ overlaps_known [] c /\
    (c ∉ filter_small 10 [c]) /\
    merge_constructed 10 [] [c] = [].
Proof.
  exists (mkBrunnel tunnel 0 10). split; [reflexivity|].
  split; [vm_compute; discriminate|].
  split; [intros H; inversion H|].
  split; [|reflexivity].
  intros H. apply elem_of_filter_small in H as [H _]. vm_compute in H. discriminate H.
Qed.

Lemma final_brunnels_construct (elevation distances : list Q) (brunnels : list Brunnel)
    (distance_delta max_bridge_length max_tunnel_length construct_brunnel_thresh : Q)
    (final : list Brunnel) :
  final_brunnels elevation distances brunnels distance_delta true
    max_bridge_length max_tunnel_length construct_brunnel_thresh = Ok final ->
  exists constructed,
    construct_candidates elevation distances construct_brunnel_thresh
      max_bridge_length max_tunnel_length = Ok constructed /\
    final = merge_constructed distance_delta brunnels constructed.
Proof.
  unfold final_brunnels. intros H. inv_res H. injection H as <-. eauto.
Qed.

(** [C4]: the interval set the correction runs on consists of the known
    intervals and of those constructed candidates that pass the length
    filter and overlap no known interval; a candidate whose start or end
    lies in a known interval, or which contains one, is not among the
    constructed intervals that are kept, while the known interval is in
    the set. *)
Theorem overlapping_constructed_discarded (elevation distances : list Q)
    (brunnels : list Brunnel)
    (distance_delta max_bridge_length max_tunnel_length construct_brunnel_thresh : Q)
    (final : list Brunnel) :
  final_brunnels elevation distances brunnels distance_delta true
    max_bridge_length max_tunnel_length construct_brunnel_thresh = Ok final ->
  exists constructed kept,
    construct_candidates elevation distances construct_brunnel_thresh
      max_bridge_length max_tunnel_length = Ok constructed /\
    kept = drop_overlapping brunnels (filter_small distance_delta constructed) /\
    (final ≡ₚ brunnels ++ kept) /\
    (forall c, c ∈ kept <->
       c ∈ constructed /\ distance_delta < brunnel_length c /\ ~ overlaps_known brunnels c) /\
    (forall c k, k ∈ brunnels ->
       start_in_brunnel c k \/ end_in_brunnel c k \/ around_brunnel c k ->
       (c ∉ kept) /\ k ∈ final).
Proof.
  intros H. apply final_brunnels_construct in H as (constructed & Hc & ->).
  exists constructed, (drop_overlapping brunnels (filter_small distance_delta constructed)).
  split; [exact Hc|]. split; [reflexivity|].
  split; [apply merge_constructed_Permutation|]. split.
  - intros c. rewrite elem_of_drop_overlapping, elem_of_filter_small. tauto.
  - intros c k Hk Hov. split.
    + intros Hin. apply elem_of_drop_overlapping in Hin as [Hno _].
      apply Hno. apply Exists_exists. exists k. split; [|exact Hov].
      exact Hk.
    + apply elem_of_merge_constructed. left. exact Hk.
Qed.

Lemma overlapping_constructed_discarded_witness :
  exists constructed kept,
    construct_candidates [80; 80; 80; 60; 50; 60; 80; 80] [0; 10; 20; 30; 40; 50; 60; 70]
      3 300 300 = Ok constructed /\
    kept = drop_overlapping [mkBrunnel tunnel 32 38] (filter_small 10 constructed) /\
    ([mkBrunnel tunnel 32 38] ≡ₚ [mkBrunnel tunnel 32 38] ++ kept) /\
    (forall c, c ∈ kept <->
       c ∈ constructed /\ 10 < brunnel_length c /\
       ~ overlaps_known [mkBrunnel tunnel 32 38] c) /\
    (forall c k, k ∈ [mkBrunnel tunnel 32 38] ->
       start_in_brunnel c k \/ end_in_brunnel c k \/ around_brunnel c k ->
       (c ∉ kept) /\ k ∈ [mkBrunnel tunnel 32 38]).
Proof.
  apply (overlapping_constructed_discarded
           [80; 80; 80; 60; 50; 60; 80; 80] [0; 10; 20; 30; 40; 50; 60; 70]
           [mkBrunnel tunnel 32 38] 10 300 300 3 [mkBrunnel tunnel 32 38]).
  vm_compute. reflexivity.
Defined.

(** ** C3: how many intervals cover a sample *)

Lemma filter_none {A} (P : A -> Prop) `{!forall a, Decision (P a)} (l : list A) :
  (forall a, a ∈ l -> ~ P a) -> filter P l = [].
Proof.
  induction l as [|a l IH]; intros Hno; [reflexivity|].
  rewrite filter_cons_False by (apply Hno; left).
  apply IH. intros b Hb. apply Hno. right. exact Hb.
Qed.

Section Argwhere.
Variable x : Q.

Lemma argwhere_aux (f : nat -> Q * Q -> nat * (Q * Q)) (l : list Brunnel) :
  (forall i p, (f i p).2 = p) ->
  length (filter (fun p : nat * (Q * Q) => p.2.1 <= x /\ x <= p.2.2)
                 (imap f (zip (start_dist <$> l) (end_dist <$> l)))) =
  length (filter (covers x) l).
Proof.
  revert f. induction l as [|b l IH]; intros f Hf; [reflexivity|].
  cbn [fmap list_fmap zip zip_with]. rewrite imap_cons, !filter_cons.
  specialize (IH (f ∘ S) (fun i p => Hf (S i) p)).
  rewrite (Hf 0%nat). unfold covers at 1. cbn [fst snd].
  destruct (decide (start_dist b <= x /\ x <= end_dist b)); cbn [length]; rewrite IH;
    reflexivity.
Qed.

Lemma length_argwhere (l : list Brunnel) :
  length (argwhere x (start_dist <$> l) (end_dist <$> l)) = length (filter (covers x) l).
Proof.
  unfold argwhere. rewrite length_fmap. apply argwhere_aux. reflexivity.
Qed.

Lemma disjoint_not_both (a b : Brunnel) :
  brunnels_disjoint a b -> covers x a -> covers x b -> False.
Proof. unfold brunnels_disjoint, covers. intros [H|H] [? ?] [? ?]; lra. Qed.

Lemma disjoint_filter_covers (l : list Brunnel) :
  ForallOrdPairs brunnels_disjoint l -> (length (filter (covers x) l) <= 1)%nat.
Proof.
  induction 1 as [|a l Ha _ IH]; [cbn; lia|].
  rewrite filter_cons. destruct (decide (covers x a)) as [Hc|Hc]; [|exact IH].
  assert (filter (covers x) l = []) as ->; [|cbn; lia].
  apply filter_none. intros b Hb Hcb.
  rewrite Forall_forall in Ha. exact (disjoint_not_both a b (Ha b Hb) Hc Hcb).
Qed.

(** A kept candidate and a known interval never cover the same point:
    otherwise one of the three tests of lines 398-406 holds. *)
Lemma kept_not_with_known (brunnels : list Brunnel) (c k : Brunnel) :
  ~ overlaps_known brunnels c -> k ∈ brunnels -> covers x c -> covers x k -> False.
Proof.
  intros Hno Hk [Hc1 Hc2] [Hk1 Hk2]. apply Hno, Exists_exists. exists k.
  split; [exact Hk|].
  unfold start_in_brunnel, end_in_brunnel, around_brunnel.
  destruct (Qlt_le_dec (start_dist c) (start_dist k));
    destruct (Qlt_le_dec (end_dist k) (end_dist c)).
  - right. right. split; lra.
  - right. left. split; lra.
  - left. split; lra.
  - left. split; lra.
Qed.
End Argwhere.

Lemma sorted_lookup_lt (d : list Q) (a b : nat) (x y : Q) :
  StronglySorted Qlt d -> (a < b)%nat -> d !! a = Some x -> d !! b = Some y -> x < y.
Proof.
  intros Hs. revert a b. induction Hs as [|z l _ IH Hz]; intros a b Hab Ha Hb.
  - rewrite lookup_nil in Ha. discriminate.
  - destruct b as [|b]; [lia|]. cbn in Hb. destruct a as [|a].
    + injection Ha as <-. rewrite Forall_lookup in Hz. exact (Hz b y Hb).
    + cbn in Ha. apply (IH a b); [lia | assumption | assumption].
Qed.

Lemma FOP_snoc {A} (R : A -> A -> Prop) (l : list A) (x : A) :
  ForallOrdPairs R l -> Forall (fun a => R a x) l -> ForallOrdPairs R (l ++ [x]).
Proof.
  induction 1 as [|a l Ha _ IH]; intros Hx; cbn.
  - constructor; constructor.
  - apply Forall_cons in Hx as [Hax Hx]. constructor.
    + apply Forall_app. split; [exact Ha | constructor; [exact Hax | constructor]].
    + apply IH, Hx.
Qed.

Lemma FOP_impl {A} (R S : A -> A -> Prop) (l : list A) :
  (forall a b, R a b -> S a b) -> ForallOrdPairs R l -> ForallOrdPairs S l.
Proof.
  intros HRS. induction 1 as [|a l Ha _ IH]; constructor; [|exact IH].
  eapply Forall_impl; [exact Ha | apply HRS].
Qed.

Lemma FOP_filter {A} (R : A -> A -> Prop) (P : A -> Prop) `{!forall a, Decision (P a)}
    (l : list A) :
  ForallOrdPairs R l -> ForallOrdPairs R (filter P l).
Proof.
  induction 1 as [|a l Ha _ IH]; [constructor|].
  rewrite filter_cons. destruct (decide (P a)); [|exact IH].
  constructor; [|exact IH].
  apply Forall_forall. intros b Hb. apply list_elem_of_filter in Hb as [_ Hb].
  rewrite Forall_forall in Ha. apply Ha, Hb.
Qed.

Section ScanInvariant.
Variables (elevation distances diff : list Q).
Variables (construct_brunnel_thresh max_bridge_length max_tunnel_length : Q).
Hypothesis distances_increasing : StronglySorted Qlt distances.

Lemma find_return_ge (back : Q -> bool) (rest : list Q) (j0 j : nat) :
  find_return back rest j0 = Some j -> (j0 <= j)%nat.
Proof.
  revert j0. induction rest as [|e rest IH]; intros j0; cbn; [discriminate|].
  destruct (back e).
  - intros [= ->]. lia.
  - intros H. apply IH in H. lia.
Qed.

Lemma scan_inv_mono (i i' : nat) (acc : list Brunnel) :
  (i <= i')%nat -> scan_inv distances i acc -> scan_inv distances i' acc.
Proof.
  intros Hle [Hord Hend]. split; [exact Hord|].
  eapply Forall_impl; [exact Hend|]. intros c (b & Hb & Hc). exists b. split; [lia | exact Hc].
Qed.

Lemma close_span_inv (kind : BrunnelKind) (max_length : Q) (i j : nat)
    (acc acc' : list Brunnel) :
  (i < j)%nat -> scan_inv distances i acc ->
  close_span distances kind max_length i j acc = Ok acc' ->
  scan_inv distances (S j) acc'.
Proof.
  intros Hij Hinv H. unfold close_span in H. inv_res H.
  apply of_option_Ok in Ha, Ha0.
  destruct (decide (a - a0 <= max_length)); injection H as <-.
  - destruct Hinv as [Hord Hend]. split.
    + apply FOP_snoc; [exact Hord|].
      eapply Forall_impl; [exact Hend|]. intros c (b & Hb & Hc).
      unfold span_before. cbn.
      exact (sorted_lookup_lt distances b i _ _ distances_increasing Hb Hc Ha0).
    + apply Forall_app. split.
      * eapply Forall_impl; [exact Hend|]. intros c (b & Hb & Hc).
        exists b. split; [lia | exact Hc].
      * constructor; [|constructor]. exists j. split; [lia | exact Ha].
  - apply (scan_inv_mono i); [lia | exact Hinv].
Qed.

Lemma scan_preserves_inv (fuel : nat) :
  forall (i : nat) (acc out : list Brunnel),
    scan_inv distances i acc ->
    scan elevation distances diff construct_brunnel_thresh max_bridge_length
         max_tunnel_length fuel i acc = Ok out ->
    exists i', scan_inv distances i' out.
Proof.
  induction fuel as [|fuel IH]; intros i acc out Hinv H; cbn [scan] in H;
    destruct (length elevation <=? i)%nat;
    try (injection H as <-; exists i; exact Hinv); [discriminate|].
  inv_res H.
  assert (Hnext : scan_inv distances (S i) acc) by (apply (scan_inv_mono i); [lia | exact Hinv]).
  repeat match type of H with
         | (if ?c then _ else _) = _ => destruct c
         end.
  - destruct (find_return _ _ _) as [j|] eqn:Hj; [|exact (IH _ _ _ Hnext H)].
    apply find_return_ge in Hj. inv_res H.
    apply (IH (S j) a1 out); [|exact H].
    apply (close_span_inv bridge max_bridge_length i j acc); [lia | exact Hinv | exact Ha1].
  - destruct (find_return _ _ _) as [j|] eqn:Hj; [|exact (IH _ _ _ Hnext H)].
    apply find_return_ge in Hj. inv_res H.
    apply (IH (S j) a1 out); [|exact H].
    apply (close_span_inv tunnel max_tunnel_length i j acc); [lia | exact Hinv | exact Ha1].
  - exact (IH _ _ _ Hnext H).
Qed.

Lemma close_span_Raise (kind : BrunnelKind) (max_length : Q) (i j : nat)
    (acc : list Brunnel) (e : exn) :
  close_span distances kind max_length i j acc = Raise e -> e = IndexError.
Proof.
  unfold close_span. intros H.
  apply bind_Raise in H as [H | (dj & _ & H)]; [exact (of_option_Raise _ _ _ H)|].
  apply bind_Raise in H as [H | (di & _ & H)]; [exact (of_option_Raise _ _ _ H)|].
  discriminate H.
Qed.

(** The loop ends within [len(elevation) - i] iterations: with that
    much fuel the only exception is an index out of range. *)
Lemma scan_Raise (fuel : nat) :
  forall (i : nat) (acc : list Brunnel) (e : exn),
    (length elevation <= fuel + i)%nat ->
    scan elevation distances diff construct_brunnel_thresh max_bridge_length
         max_tunnel_length fuel i acc = Raise e ->
    e = IndexError.
Proof.
  induction fuel as [|fuel IH]; intros i acc e Hlen H; cbn [scan] in H;
    destruct (length elevation <=? i)%nat eqn:E; try discriminate.
  - apply Nat.leb_gt in E. lia.
  - apply Nat.leb_gt in E.
    apply bind_Raise in H as [H | (d & _ & H)]; [exact (of_option_Raise _ _ _ H)|].
    apply bind_Raise in H as [H | (ei & _ & H)]; [exact (of_option_Raise _ _ _ H)|].
    repeat match type of H with
           | (if ?c then _ else _) = _ => destruct c
           end;
      try (destruct (find_return _ _ _) as [j|] eqn:Hj;
           [apply find_return_ge in Hj;
            apply bind_Raise in H as [H | (acc' & _ & H)];
            [exact (close_span_Raise _ _ _ _ _ _ H)|] |]);
      (eapply IH; [|exact H]; lia).
Qed.
End ScanInvariant.

(** Case analysis of a hypothesis [H : c = Raise e] along the binds and
    branches of [c], down to the primitive that raises. *)
Ltac raise_cases H :=
  repeat first
    [ apply bind_Raise in H as [H | (? & _ & H)]
    | match type of H with
      | (if ?c then _ else _) = Raise _ => destruct c
      | match ?x with _ => _ end = Raise _ => destruct x
      end ];
  try discriminate H;
  try first
    [ apply of_option_Raise in H
    | apply np_div_Raise in H as [H _]
    | apply round_div_Raise in H as [H _]
    | apply py_getitem_Raise in H
    | apply py_setitem_Raise in H ].

Lemma diff_signal_Raise (elevation : list Q) (e : exn) :
  diff_signal elevation = Raise e -> e = ValueError.
Proof.
  unfold diff_signal, np_convolve_same. destruct (_ || _)%bool; congruence.
Qed.

Lemma construct_candidates_Raise (elevation distances : list Q)
    (construct_brunnel_thresh max_bridge_length max_tunnel_length : Q) (e : exn) :
  construct_candidates elevation distances construct_brunnel_thresh
    max_bridge_length max_tunnel_length = Raise e ->
  e = ValueError \/ e = IndexError.
Proof.
  unfold construct_candidates. intros H.
  apply bind_Raise in H as [H | (d & _ & H)].
  - left. exact (diff_signal_Raise _ _ H).
  - right. apply scan_Raise in H; [exact H | lia].
Qed.

Lemma final_brunnels_Raise (elevation distances : list Q) (brunnels : list Brunnel)
    (distance_delta : Q) (construct_brunnels : bool)
    (max_bridge_length max_tunnel_length construct_brunnel_thresh : Q) (e : exn) :
  final_brunnels elevation distances brunnels distance_delta construct_brunnels
    max_bridge_length max_tunnel_length construct_brunnel_thresh = Raise e ->
  e = ValueError \/ e = IndexError.
Proof.
  unfold final_brunnels. destruct construct_brunnels; [|discriminate]. intros H.
  apply bind_Raise in H as [H | (c & _ & H)]; [|discriminate].
  exact (construct_candidates_Raise _ _ _ _ _ _ H).
Qed.

Lemma argwhere_covers (x : Q) (start_dists end_dists : list Q) (k : nat) :
  k ∈ argwhere x start_dists end_dists ->
  exists sd ed, start_dists !! k = Some sd /\ end_dists !! k = Some ed /\ sd <= x <= ed.
Proof.
  unfold argwhere. intros H.
  apply list_elem_of_fmap in H as ([k' [sd ed]] & -> & H).
  apply list_elem_of_filter in H as [Hcov H].
  apply elem_of_lookup_imap in H as (i & [sd' ed'] & Heq & Hp).
  injection Heq as Hi Hs He. subst k' sd' ed'.
  apply lookup_zip_with_Some in Hp as (a & b & Heq & Ha & Hb).
  injection Heq as Hs He. subst a b. cbn in Hcov |- *. eauto.
Qed.

Section CorrectRaise.
Variables (start_dists end_dists : list Q) (distance_delta : Q) (dt : dtype).

Lemma line_through_Raise (p1 p2 : Q * Q) (x : Q) (e : exn) :
  line_through p1 p2 x = Raise e -> e = NonFinite /\ p2.1 - p1.1 == 0.
Proof.
  unfold line_through. intros H.
  apply bind_Raise in H as [H | (? & _ & H)]; [|discriminate].
  exact (np_div_Raise _ _ _ H).
Qed.

Lemma endpoint_elevations_Raise (ele_brunnel : list Q) (idx : nat) (e : exn) :
  endpoint_elevations start_dists end_dists distance_delta ele_brunnel idx = Raise e ->
  e = IndexError \/ ((e = ValueError \/ e = OverflowError) /\ distance_delta == 0).
Proof.
  unfold endpoint_elevations. intros H.
  repeat first
    [ apply bind_Raise in H as [H | (? & _ & H)]
    | match type of H with
      | (if ?c then _ else _) = Raise _ => destruct c
      | match ?x with _ => _ end = Raise _ => destruct x
      end ];
  try discriminate H;
  try (apply of_option_Raise in H; auto; fail);
  try (apply py_getitem_Raise in H; auto; fail);
  apply round_div_Raise in H; auto.
Qed.

(** A run that has passed the two [round]s has a step that is not zero. *)
Lemma endpoint_elevations_Ok_nonzero (ele_brunnel : list Q) (idx : nat) (p : Q * Q) :
  endpoint_elevations start_dists end_dists distance_delta ele_brunnel idx = Ok p ->
  ~ distance_delta == 0.
Proof.
  unfold endpoint_elevations, round_div. intros H Hz.
  apply Qeq_bool_iff in Hz. rewrite Hz in H.
  destruct (start_dists !! idx); [|discriminate]. destruct (end_dists !! idx); discriminate.
Qed.

(** What one iteration can raise. The assertion of line 429 is the only
    assertion that can fail, and it fails only when more than one
    interval covers the sample; [round] fails only for a zero
    [distance_delta], and the line has a zero divisor only for a
    negative one. *)
Lemma correct_sample_Raise (ele_brunnel : list Q) (i : nat) (x : Q) (e : exn) :
  correct_sample start_dists end_dists distance_delta dt ele_brunnel i x = Raise e ->
  e = IndexError \/
  ((e = ValueError \/ e = OverflowError) /\ distance_delta == 0) \/
  (e = NonFinite /\ distance_delta < 0) \/
  (e = AssertionError /\ (1 < length (argwhere x start_dists end_dists))%nat).
Proof.
  unfold correct_sample. intros H.
  destruct (decide _) as [Hle|Hgt];
    [|injection H as <-; right; right; right; split; [reflexivity | lia]].
  destruct (argwhere x start_dists end_dists) as [|k [|k' idx]] eqn:Hidx; try discriminate H.
  apply bind_Raise in H as [H | ([s e'] & Hend & H)].
  - apply endpoint_elevations_Raise in H. tauto.
  - apply endpoint_elevations_Ok_nonzero in Hend.
    apply bind_Raise in H as [H | (sd & Hsd & H)]; [apply of_option_Raise in H; auto|].
    apply bind_Raise in H as [H | (ed & Hed & H)]; [apply of_option_Raise in H; auto|].
    apply of_option_Ok in Hsd, Hed.
    apply bind_Raise in H as [H | (? & _ & H)]; [|apply py_setitem_Raise in H; auto].
    apply line_through_Raise in H as [-> Hzero]. cbn [fst snd] in Hzero.
    right. right. left. split; [reflexivity|].
    destruct (argwhere_covers x start_dists end_dists k) as (sd' & ed' & Hsd' & Hed' & Hcov);
      [rewrite Hidx; left|].
    assert (sd' = sd) by congruence. assert (ed' = ed) by congruence. subst sd' ed'.
    destruct (Qlt_le_dec distance_delta 0) as [Hneg|Hpos]; [exact Hneg|].
    exfalso. apply Hend. lra.
Qed.

Lemma correct_loop_Raise (xs : list Q) :
  forall (ele_brunnel : list Q) (i : nat) (e : exn),
    correct_loop start_dists end_dists distance_delta dt ele_brunnel i xs = Raise e ->
    e = IndexError \/
    ((e = ValueError \/ e = OverflowError) /\ distance_delta == 0) \/
    (e = NonFinite /\ distance_delta < 0) \/
    (e = AssertionError /\
     exists x, x ∈ xs /\ (1 < length (argwhere x start_dists end_dists))%nat).
Proof.
  induction xs as [|x xs IH]; intros ele i e H; cbn [correct_loop] in H; [discriminate|].
  apply bind_Raise in H as [H | (ele' & _ & H)].
  - apply correct_sample_Raise in H as [H | [H | [H | [H1 H2]]]]; auto.
    right. right. right. split; [exact H1|]. exists x. split; [left | exact H2].
  - apply IH in H as [H | [H | [H | (H1 & y & Hy & H2)]]]; auto.
    right. right. right. split; [exact H1|]. exists y. split; [right; exact Hy | exact H2].
Qed.
End CorrectRaise.

Section AtMostOne.
Variables (dt : dtype) (elevation distances : list Q) (brunnels : list Brunnel).
Variables (distance_delta : Q) (construct_brunnels : bool).
Variables (max_bridge_length max_tunnel_length construct_brunnel_thresh : Q).
Hypothesis known_disjoint : ForallOrdPairs brunnels_disjoint brunnels.
Hypothesis distances_increasing : StronglySorted Qlt distances.

Lemma constructed_disjoint (constructed : list Brunnel) :
  construct_candidates elevation distances construct_brunnel_thresh
    max_bridge_length max_tunnel_length = Ok constructed ->
  ForallOrdPairs brunnels_disjoint constructed.
Proof.
  unfold construct_candidates. intros H. inv_res H.
  apply scan_preserves_inv in H as (i' & Hord & _).
  - eapply FOP_impl; [|exact Hord]. intros c1 c2 Hc. left. exact Hc.
  - exact distances_increasing.
  - split; constructor.
Qed.

Lemma final_covers_at_most_one (final : list Brunnel) (x : Q) :
  final_brunnels elevation distances brunnels distance_delta construct_brunnels
    max_bridge_length max_tunnel_length construct_brunnel_thresh = Ok final ->
  (length (filter (covers x) final) <= 1)%nat.
Proof.
  destruct construct_brunnels.
  - intros H. apply final_brunnels_construct in H as (constructed & Hc & ->).
    rewrite merge_constructed_Permutation, filter_app, length_app.
    pose proof (disjoint_filter_covers x brunnels known_disjoint) as Hknown.
    assert (Hkept : (length (filter (covers x)
              (drop_overlapping brunnels (filter_small distance_delta constructed))) <= 1)%nat).
    { apply disjoint_filter_covers. unfold drop_overlapping, filter_small.
      apply FOP_filter, FOP_filter, constructed_disjoint, Hc. }
    destruct (filter (covers x) brunnels) as [|k ks] eqn:Ek; [cbn; lia|].
    assert (Hk : k ∈ filter (covers x) brunnels) by (rewrite Ek; left).
    apply list_elem_of_filter in Hk as [Hkx Hk].
    rewrite (filter_none (covers x)
               (drop_overlapping brunnels (filter_small distance_delta constructed))).
    + cbn in Hknown |- *. lia.
    + intros c Hcin Hcx. apply elem_of_drop_overlapping in Hcin as [Hno _].
      exact (kept_not_with_known x brunnels c k Hno Hk Hcx Hkx).
  - intros [= <-]. apply disjoint_filter_covers, known_disjoint.
Qed.

(** [C3], as the code has it: when the known intervals are pairwise
    disjoint and the sample distances strictly increase, at most one
    interval of the final set covers any distance, the assertion of the
    correction loop does not fail, and the construction scan ends. *)
Theorem at_most_one_interval_covers :
  (forall final x,
     final_brunnels elevation distances brunnels distance_delta construct_brunnels
       max_bridge_length max_tunnel_length construct_brunnel_thresh = Ok final ->
     (length (argwhere x (start_dist <$> final) (end_dist <$> final)) <= 1)%nat) /\
  interpolate_brunnels dt elevation distances brunnels distance_delta construct_brunnels
    max_bridge_length max_tunnel_length construct_brunnel_thresh <> Raise AssertionError /\
  interpolate_brunnels dt elevation distances brunnels distance_delta construct_brunnels
    max_bridge_length max_tunnel_length construct_brunnel_thresh <> Raise OutOfFuel.
Proof.
  assert (Hcover : forall final x,
     final_brunnels elevation distances brunnels distance_delta construct_brunnels
       max_bridge_length max_tunnel_length construct_brunnel_thresh = Ok final ->
     (length (argwhere x (start_dist <$> final) (end_dist <$> final)) <= 1)%nat).
  { intros final x H. rewrite length_argwhere. exact (final_covers_at_most_one final x H). }
  split; [exact Hcover|].
  unfold interpolate_brunnels.
  destruct (_ && _)%bool; [split; discriminate|].
  split; intros H; apply bind_Raise in H as [H | (final & Hf & H)];
    try (apply final_brunnels_Raise in H as [H|H]; discriminate H);
    apply correct_loop_Raise in H as [H | [[[H | H] _] | [[H _] | (_ & x & _ & Hx)]]];
    try discriminate H.
  all: specialize (Hcover final x Hf); lia.
Qed.
End AtMostOne.

(** [C3], as stated, fails: [interpolate_brunnels] takes the known
    intervals as they are, and two of them that overlap cover one sample;
    the assertion fails. *)
Lemma overlapping_known_assertion_fails :
  length (argwhere 10 [0; 10] [20; 30]) = 2%nat /\
  interpolate_brunnels float64 [0; 10; 20; 50] [0; 10; 20; 30]
    [mkBrunnel bridge 0 20; mkBrunnel bridge 10 30] 10 false 300 300 3
  = Raise AssertionError.
Proof. split; reflexivity. Qed.

Lemma at_most_one_interval_covers_witness :
  let elevation := [80; 80; 80; 60; 50; 60; 80; 80] in
  let distances := [0; 10; 20; 30; 40; 50; 60; 70] in
  let brunnels := [mkBrunnel tunnel 62 68; mkBrunnel bridge 2 8] in
  (forall final x,
     final_brunnels elevation distances brunnels 10 true 300 300 3 = Ok final ->
     (length (argwhere x (start_dist <$> final) (end_dist <$> final)) <= 1)%nat) /\
  interpolate_brunnels float64 elevation distances brunnels 10 true 300 300 3
    <> Raise AssertionError /\
  interpolate_brunnels float64 elevation distances brunnels 10 true 300 300 3
    <> Raise OutOfFuel.
Proof.
  apply (at_most_one_interval_covers float64
           [80; 80; 80; 60; 50; 60; 80; 80] [0; 10; 20; 30; 40; 50; 60; 70]
           [mkBrunnel tunnel 62 68; mkBrunnel bridge 2 8] 10 true 300 300 3).
  - constructor; [|constructor; constructor].
    constructor; [|constructor]. right. reflexivity.
  - repeat (constructor; [|repeat (constructor; [reflexivity|]); constructor]).
    constructor.
Defined.

(** ** C1, C2: what the correction loop writes *)

Lemma py_setitem_Ok (l l' : list Q) (i : nat) (v : Q) :
  py_setitem l i v = Ok l' <-> (i < length l)%nat /\ l' = <[i:=v]> l.
Proof.
  unfold py_setitem. destruct (i <? length l)%nat eqn:E.
  - apply Nat.ltb_lt in E. split; [intros [= <-]; auto | intros [_ ->]; reflexivity].
  - apply Nat.ltb_ge in E. split; [discriminate | intros [H _]; lia].
Qed.

(** [X16] The line of lines 483-488 passes through both of its points. *)
Lemma line_through_points (p1 p2 : Q * Q) :
  ~ p2.1 - p1.1 == 0 ->
  exists v1 v2,
    line_through p1 p2 p1.1 = Ok v1 /\ v1 == p1.2 /\
    line_through p1 p2 p2.1 = Ok v2 /\ v2 == p2.2.
Proof.
  intros Hne. unfold line_through, np_div.
  destruct (Qeq_bool (p2.1 - p1.1) 0) eqn:E;
    [apply Qeq_bool_iff in E; contradiction|].
  cbn [mbind res_bind]. eexists. eexists.
  split; [reflexivity|]. split; [field; exact Hne|].
  split; [reflexivity|]. field. exact Hne.
Qed.

(** Values of one such line are collinear: the samples of an interval
    lie on one straight line as long as the two endpoint elevations read
    for them stay the same. *)
Lemma line_through_collinear (p1 p2 : Q * Q) (x1 x2 x3 v1 v2 v3 : Q) :
  line_through p1 p2 x1 = Ok v1 ->
  line_through p1 p2 x2 = Ok v2 ->
  line_through p1 p2 x3 = Ok v3 ->
  collinear (x1, v1) (x2, v2) (x3, v3).
Proof.
  unfold line_through. intros H1 H2 H3.
  apply bind_Ok in H1 as (m & Hm & [= <-]).
  rewrite Hm in H2, H3. injection H2 as <-. injection H3 as <-.
  unfold collinear. cbn [fst snd]. ring.
Qed.

Section CorrectLoop.
Variables (start_dists end_dists : list Q) (distance_delta : Q) (dt : dtype).

Lemma correct_sample_Ok (ele ele' : list Q) (i : nat) (x : Q) :
  correct_sample start_dists end_dists distance_delta dt ele i x = Ok ele' ->
  (argwhere x start_dists end_dists = [] /\ ele' = ele) \/
  (exists v, sample_corrected start_dists end_dists distance_delta ele x v /\
             (i < length ele)%nat /\ ele' = <[i:=astype dt v]> ele).
Proof.
  unfold correct_sample, sample_corrected. intros H.
  destruct (decide _) as [Hle|]; [|discriminate].
  destruct (argwhere x start_dists end_dists) as [|k [|k' idx]]; cbn in Hle; [| |lia].
  - injection H as <-. left. auto.
  - right. apply bind_Ok in H as ([s e] & Hse & H). inv_res H.
    apply of_option_Ok in Ha, Ha0. apply py_setitem_Ok in H as [Hi ->].
    exists a1. split; [|auto]. exists k, a, a0, s, e. auto.
Qed.

Lemma correct_sample_length (ele ele' : list Q) (i : nat) (x : Q) :
  correct_sample start_dists end_dists distance_delta dt ele i x = Ok ele' ->
  length ele' = length ele.
Proof.
  intros H. apply correct_sample_Ok in H as [[_ ->] | (v & _ & _ & ->)];
    [reflexivity | apply length_insert].
Qed.

Lemma correct_sample_other (ele ele' : list Q) (i j : nat) (x : Q) :
  correct_sample start_dists end_dists distance_delta dt ele i x = Ok ele' ->
  i <> j -> ele' !! j = ele !! j.
Proof.
  intros H Hij. apply correct_sample_Ok in H as [[_ ->] | (v & _ & _ & ->)];
    [reflexivity | apply list_lookup_insert_ne, Hij].
Qed.

(** Position [i + n] is written once, when sample [n] of [xs] is
    reached; every other position keeps its value. *)
Lemma correct_loop_from (xs : list Q) :
  forall (ele out : list Q) (i : nat),
    correct_loop start_dists end_dists distance_delta dt ele i xs = Ok out ->
    length out = length ele /\
    (forall j, (j < i \/ i + length xs <= j)%nat -> out !! j = ele !! j) /\
    (forall n x, xs !! n = Some x ->
       exists ele_n,
         length ele_n = length ele /\
         (forall j, (j < i)%nat -> ele_n !! j = ele !! j) /\
         (forall j, (i <= j < i + n)%nat -> ele_n !! j = out !! j) /\
         (forall j, (i + n <= j)%nat -> ele_n !! j = ele !! j) /\
         ((argwhere x start_dists end_dists = [] /\ out !! (i + n)%nat = ele !! (i + n)%nat) \/
          (exists v, sample_corrected start_dists end_dists distance_delta ele_n x v /\
                     out !! (i + n)%nat = Some (astype dt v)))).
Proof.
  induction xs as [|x0 xs IH]; intros ele out i H; cbn [correct_loop] in H.
  - injection H as <-. split; [reflexivity|]. split; [reflexivity|].
    intros n x Hn. rewrite lookup_nil in Hn. discriminate.
  - apply bind_Ok in H as (ele' & Hstep & H).
    destruct (IH ele' out (S i) H) as (Hlen & Hout & Hsamples).
    pose proof (correct_sample_length _ _ _ _ Hstep) as Hlen'.
    pose proof (fun j => correct_sample_other _ _ _ j _ Hstep) as Hother.
    split; [congruence|]. split.
    + intros j Hj. cbn [length] in Hj. rewrite Hout by lia. apply Hother. lia.
    + intros [|n] x Hx; cbn in Hx.
      * injection Hx as ->. exists ele. rewrite Nat.add_0_r.
        split; [reflexivity|]. split; [reflexivity|]. split; [intros j Hj; lia|].
        split; [reflexivity|].
        rewrite Hout by lia.
        apply correct_sample_Ok in Hstep as [[Hnone ->] | (v & Hv & Hi & ->)].
        -- left. auto.
        -- right. exists v. split; [exact Hv|]. apply list_lookup_insert_eq, Hi.
      * destruct (Hsamples n x Hx) as (ele_n & Hn1 & Hn2 & Hn3 & Hn4 & Hn5).
        exists ele_n. replace (i + S n)%nat with (S i + n)%nat by lia.
        split; [congruence|].
        split; [intros j Hj; rewrite Hn2 by lia; apply Hother; lia|].
        split.
        { intros j Hj. destruct (decide (j = i)) as [->|Hne].
          - rewrite Hn2 by lia. symmetry. apply Hout. lia.
          - apply Hn3. lia. }
        split; [intros j Hj; rewrite Hn4 by lia; apply Hother; lia|].
        destruct Hn5 as [[Hnone Heq] | Hv]; [left | right; exact Hv].
        split; [exact Hnone|]. rewrite Heq. apply Hother. lia.
Qed.
End CorrectLoop.

(** [X15] The per-sample behaviour of [interpolate_brunnels] for a
    [distance_delta] that is not negative: the call raises one of four
    Python exceptions or returns an array of the length of the input, in
    which a sample covered by no interval of the final set keeps its
    input elevation and a sample covered by exactly one holds the value
    at [x] of the line through the two buffered endpoints, the endpoint
    elevations being read from the working array at that moment, and the
    value being cut to an integer when the array holds integers. *)
Lemma interpolate_brunnels_samples (dt : dtype) (elevation distances : list Q)
    (brunnels : list Brunnel) (distance_delta : Q) (construct_brunnels : bool)
    (max_bridge_length max_tunnel_length construct_brunnel_thresh : Q) :
  0 <= distance_delta ->
  match interpolate_brunnels dt elevation distances brunnels distance_delta
          construct_brunnels max_bridge_length max_tunnel_length construct_brunnel_thresh with
  | Raise e => e = IndexError \/ e = AssertionError \/ e = ValueError \/ e = OverflowError
  | Ok out =>
    exists final,
      final_brunnels elevation distances brunnels distance_delta construct_brunnels
        max_bridge_length max_tunnel_length construct_brunnel_thresh = Ok final /\
      length out = length elevation /\
      (forall n, distances !! n = None -> out !! n = elevation !! n) /\
      (forall n x, distances !! n = Some x ->
         (argwhere x (start_dist <$> final) (end_dist <$> final) = [] ->
            out !! n = elevation !! n) /\
         (forall k, argwhere x (start_dist <$> final) (end_dist <$> final) = [k] ->
            exists v ele_n,
              working_array elevation out n ele_n /\
              sample_corrected (start_dist <$> final) (end_dist <$> final) distance_delta
                ele_n x v /\
              out !! n = Some (astype dt v)))
  end.
Proof.
  intros Hd.
  destruct (interpolate_brunnels _ _ _ _ _ _ _ _ _) as [out|e] eqn:H;
    unfold interpolate_brunnels in H; destruct (_ && _)%bool eqn:Hearly.
  - injection H as <-. apply andb_prop in Hearly as [Hnil Hc].
    destruct construct_brunnels; [discriminate|]. destruct brunnels; [|discriminate].
    exists []. split; [reflexivity|]. split; [reflexivity|]. split; [reflexivity|].
    intros n x _. split; [reflexivity|]. intros k Hk. discriminate Hk.
  - apply bind_Ok in H as (final & Hfinal & H). exists final. split; [exact Hfinal|].
    apply correct_loop_from in H as (Hlen & Hout & Hsamples).
    split; [exact Hlen|]. split.
    + intros n Hn. apply Hout. right. apply lookup_ge_None in Hn. lia.
    + intros n x Hx. destruct (Hsamples n x Hx) as (ele_n & H1 & _ & H3 & H4 & H5).
      cbn [Nat.add] in H3, H4, H5. split.
      * intros Hnone. destruct H5 as [[_ Heq] | (v & (k & ? & ? & ? & ? & Hk & _) & _)];
          [exact Heq | congruence].
      * intros k Hk. destruct H5 as [[Hnone _] | (v & Hv & Heq)]; [congruence|].
        exists v, ele_n. split; [|auto]. split; [exact H1|].
        intros j. destruct (decide (j < n)%nat); [apply H3; lia | apply H4; lia].
  - discriminate H.
  - apply bind_Raise in H as [H | (final & _ & H)].
    + apply final_brunnels_Raise in H as [-> | ->]; auto.
    + apply correct_loop_Raise in H as [-> | [[[-> | ->] _] | [[_ Hneg] | [-> _]]]]; auto.
      lra.
Qed.

(** When both buffered indices fall outside the interior, the endpoint
    elevations are entry [0] of the working array and its entry
    [round(end_dists[-1] / distance_delta)]. *)
Lemma endpoint_elevations_fallback (start_dists end_dists : list Q) (distance_delta : Q)
    (ele_brunnel : list Q) (k : nat) (sd ed last_end : Q) :
  start_dists !! k = Some sd -> end_dists !! k = Some ed ->
  last end_dists = Some last_end ->
  ~ distance_delta == 0 ->
  (py_round (sd / distance_delta) - 1 <= 0)%Z ->
  (Z.of_nat (length ele_brunnel) - 1 <= py_round (ed / distance_delta) + 1)%Z ->
  endpoint_elevations start_dists end_dists distance_delta ele_brunnel k =
  (s ← py_getitem ele_brunnel 0;
   e ← py_getitem ele_brunnel (py_round (last_end / distance_delta));
   Ok (s, e)).
Proof.
  intros Hsd Hed Hlast Hne Hs He. unfold endpoint_elevations.
  rewrite Hsd, Hed, Hlast. cbn [of_option mbind res_bind].
  rewrite !round_div_Ok by exact Hne.
  cbn [mbind res_bind].
  destruct (decide (0 < py_round (sd / distance_delta) - 1)%Z); [lia|].
  destruct (decide (py_round (ed / distance_delta) + 1 < Z.of_nat (length ele_brunnel) - 1)%Z);
    [lia|].
  cbn [mbind res_bind of_option]. reflexivity.
Qed.

(** [C1] at a profile that is one bridge from end to end: every sample is
    covered by the one interval, and the samples written do not lie on a
    straight line. The first sample is overwritten and then read again as
    [start_ele] for the samples after it. *)
Theorem whole_profile_brunnel_not_linear :
  exists out,
    interpolate_brunnels float64 [0; 10; 20; 50] [0; 10; 20; 30] [mkBrunnel bridge 0 30]
      10 false 300 300 3 = Ok out /\
    Forall2 Qeq out [10; 26; 34; 42] /\
    (forall x, x ∈ [0; 10; 20; 30] -> argwhere x [0] [30] = [0%nat]) /\
    ~ collinear (0, out !!! 0%nat) (10, out !!! 1%nat) (20, out !!! 2%nat).
Proof.
  eexists. split; [vm_compute; reflexivity|].
  split; [repeat constructor|].
  split.
  - intros x Hx. repeat (apply elem_of_cons in Hx as [-> | Hx]; [reflexivity|]).
    inversion Hx.
  - unfold collinear. vm_compute. discriminate.
Qed.

(** [C2] at a profile whose last segment is shorter than the step and
    which is one bridge from end to end: both endpoint elevations are
    missing, and the end elevation taken is that of sample
    [round(24 / 10) = 2], not that of the last sample. *)
Theorem fallback_end_not_last_sample :
  let elevation := [0; 10; 20; 50] in
  argwhere 0 [0] [24] = [0%nat] /\
  endpoint_elevations [0] [24] 10 elevation 0 = Ok (0, 20) /\
  last elevation = Some 50 /\
  exists out v,
    interpolate_brunnels float64 elevation [0; 10; 20; 24] [mkBrunnel bridge 0 24]
      10 false 300 300 3 = Ok out /\
    out !!! 0%nat == 50 # 11 /\
    line_through (0 - 10, 0) (24 + 10, 50) 0 = Ok v /\
    ~ out !!! 0%nat == v.
Proof.
  cbv zeta. split; [reflexivity|]. split; [reflexivity|]. split; [reflexivity|].
  eexists. eexists. split; [vm_compute; reflexivity|].
  split; [reflexivity|]. split; [vm_compute; reflexivity|].
  vm_compute. discriminate.
Qed.

(** ** C6: the first entry of the first-difference signal *)

(** [C6] at a hill of two-metre steps on a plateau 80 m up, with the
    threshold at 3: the first entry of the signal is the first elevation,
    [80], instead of the [0] of an edge-padded difference, and is taken
    for a climb of 80 m. A tunnel is constructed from sample 0 to the
    sample where the elevation is back at 80, and the hill is levelled,
    although no step of the profile exceeds the threshold. The same
    profile 80 m lower, whose steps are the same, gets no tunnel and
    comes back as it was. *)
Theorem first_elevation_taken_for_a_step :
  let elevation := [80; 82; 84; 82; 80; 80; 80] in
  let lowered := [0; 2; 4; 2; 0; 0; 0] in
  let distances := [0; 10; 20; 30; 40; 50; 60] in
  Forall2 (fun e l => e - 80 == l) elevation lowered /\
  diff_signal elevation = Ok [80; 2; 2; -2; -2; 0; 0] /\
  diff_signal lowered = Ok [0; 2; 2; -2; -2; 0; 0] /\
  construct_candidates elevation distances 3 300 300 = Ok [mkBrunnel tunnel 0 40] /\
  construct_candidates lowered distances 3 300 300 = Ok [] /\
  (exists out,
     interpolate_brunnels float64 elevation distances [] 10 true 300 300 3 = Ok out /\
     Forall2 Qeq out [80; 80; 80; 80; 80; 80; 80]) /\
  interpolate_brunnels float64 lowered distances [] 10 true 300 300 3 = Ok lowered.
Proof.
  cbv zeta. split; [repeat constructor|].
  split; [reflexivity|]. split; [reflexivity|].
  split; [reflexivity|]. split; [reflexivity|].
  split; [|vm_compute; reflexivity].
  eexists. split; [vm_compute; reflexivity|]. repeat constructor.
Qed.

(** ** C7: the merge pass of [interpolate_brunnels_old] *)

(** Two adjacent intervals merge as described: the first row takes the
    end of the second and the second is dropped. *)
Lemma merge_pair (merge_distance : Q) (a b : Old.Row) :
  Old.start_dist b <= Old.end_dist a + merge_distance ->
  Old.merge_pass merge_distance [a; b] =
  [Old.mkRow (Old.geom a ++ Old.geom b) (Old.start_dist a) (Old.end_dist b)].
Proof.
  intros H. unfold Old.merge_pass. cbn [Old.merge_loop Old.merge_step lookup list_lookup Nat.sub].
  destruct (decide (Old.start_dist b <= Old.end_dist a + merge_distance)); [|contradiction].
  reflexivity.
Qed.

(** [C7] at a chain of three intervals, each within [merge_distance] of
    its predecessor: the third interval's end is written into the second
    row, which is already marked for dropping, so the retained interval
    ends where the second one did. *)
Theorem merge_chain_keeps_second_end :
  let a := Old.mkRow [(0, 0); (10, 0)] 0 10 in
  let b := Old.mkRow [(15, 0); (25, 0)] 15 25 in
  let c := Old.mkRow [(30, 0); (40, 0)] 30 40 in
  Old.sort_by_start [a; b; c] = [a; b; c] /\
  Old.start_dist b <= Old.end_dist a + 10 /\
  Old.start_dist c <= Old.end_dist b + 10 /\
  exists r,
    Old.phase_a_merge 10 [a; b; c] = [r] /\
    Old.start_dist r = 0 /\
    Old.end_dist r = 25 /\
    ~ Old.end_dist r == Old.end_dist c.
Proof.
  cbv zeta. split; [reflexivity|].
  split; [vm_compute; discriminate|]. split; [vm_compute; discriminate|].
  eexists. split; [vm_compute; reflexivity|].
  split; [reflexivity|]. split; [reflexivity|]. vm_compute. discriminate.
Qed.

(** ** C8: [adjust_forest_height] *)

Section ForestProperties.
Variable std_at : list Q -> nat -> nat -> Q.

Lemma length_rolling_std (window_size : nat) (elevation : list Q) :
  length (rolling_std std_at window_size elevation) = length elevation.
Proof. unfold rolling_std. apply length_imap. Qed.

Lemma rolling_std_lookup (window_size : nat) (elevation : list Q) (i : nat) (e : Q) :
  elevation !! i = Some e ->
  rolling_std std_at window_size elevation !! i =
  Some (if decide (2 <= window_size /\ window_size <= S i)%nat
        then Some (std_at elevation window_size i)
        else None).
Proof.
  intros H. unfold rolling_std. rewrite list_lookup_imap, H. reflexivity.
Qed.

(** Clipping to [[0, clip]] is taking the minimum with [clip] when
    neither the value nor [clip] is negative. *)
Lemma np_clip_nonneg (x hi : Q) : 0 <= x -> 0 <= hi -> np_clip x 0 hi == Qmin x hi.
Proof.
  intros Hx Hhi. unfold np_clip.
  rewrite (Q.min_l 0 hi Hhi), (Q.max_r 0 hi Hhi), (Q.max_l x 0 Hx). reflexivity.
Qed.

(** [C8]: for a factor and a clip that are not negative, a position
    whose rolling standard deviation is undefined (fewer than
    [window_size] samples up to it, that is the first [window_size - 1]
    positions, or a window of fewer than two samples) or does not exceed
    [std_thresh] keeps its elevation, and a position where it exceeds
    [std_thresh] has [min(std * sub_factor, clip)] subtracted. *)
Theorem adjust_forest_height_spec (elevation : list Q) (window_size : nat)
    (std_thresh sub_factor clip : Q) :
  (forall w i, 0 <= std_at elevation w i) -> 0 <= sub_factor -> 0 <= clip ->
  let t := rolling_std std_at window_size elevation in
  let out := adjust_forest_height std_at elevation window_size std_thresh sub_factor clip in
  length out = length elevation /\
  forall i e, elevation !! i = Some e ->
    exists ti,
      t !! i = Some ti /\
      (ti = None <-> (window_size < 2 \/ S i < window_size)%nat) /\
      match ti with
      | None => out !! i = Some e
      | Some std =>
        std = std_at elevation window_size i /\
        (~ std_thresh < std -> out !! i = Some e) /\
        (std_thresh < std ->
           exists o, out !! i = Some o /\ o == e - Qmin (std * sub_factor) clip)
      end.
Proof.
  intros Hstd Hsub Hclip. cbv zeta. unfold adjust_forest_height. split.
  - rewrite length_zip_with, length_rolling_std. lia.
  - intros i e He. eexists. split; [exact (rolling_std_lookup _ _ _ _ He)|].
    rewrite lookup_zip_with, He, (rolling_std_lookup _ _ _ _ He). cbn [mbind option_bind].
    destruct (decide (2 <= window_size /\ window_size <= S i)%nat) as [Hw|Hw].
    + split; [split; [discriminate | lia]|].
      split; [reflexivity|]. unfold adjust_sample. split.
      * intros Hn. destruct (decide _); [contradiction | reflexivity].
      * intros Hy. destruct (decide _); [|contradiction].
        eexists. split; [reflexivity|].
        rewrite np_clip_nonneg; [reflexivity | | exact Hclip].
        apply Qmult_le_0_compat; [apply Hstd | exact Hsub].
    + split; [split; [lia | reflexivity]|]. reflexivity.
Qed.
End ForestProperties.

Lemma Qsqrt_floor_nonneg (v : Q) : 0 <= Qsqrt_floor v.
Proof.
  unfold Qsqrt_floor, Qle. cbn. rewrite Z.mul_1_r. apply Z.sqrt_nonneg.
Qed.

Lemma adjust_forest_height_spec_witness :
  let elevation := [0; 4; 8; 8] in
  let t := rolling_std (window_std Qsqrt_floor) 3 elevation in
  let out := adjust_forest_height (window_std Qsqrt_floor) elevation 3 3 3 20 in
  length out = length elevation /\
  forall i e, elevation !! i = Some e ->
    exists ti,
      t !! i = Some ti /\
      (ti = None <-> (3 < 2 \/ S i < 3)%nat) /\
      match ti with
      | None => out !! i = Some e
      | Some std =>
        std = window_std Qsqrt_floor elevation 3 i /\
        (~ 3 < std -> out !! i = Some e) /\
        (3 < std -> exists o, out !! i = Some o /\ o == e - Qmin (std * 3) 20)
      end.
Proof.
  apply (adjust_forest_height_spec (window_std Qsqrt_floor) [0; 4; 8; 8] 3 3 3 20).
  - intros w i. apply Qsqrt_floor_nonneg.
  - discriminate.
  - discriminate.
Defined.

(** ** C9: [resample_ele] *)



Lemma res_mapM_Ok {A B} (f : A -> res B) (P : A -> B -> Prop) (l : list A) :
  (forall a, a ∈ l -> exists b, f a = Ok b /\ P a b) ->
  exists bs, res_mapM f l = Ok bs /\ Forall2 P l bs.
Proof.
  induction l as [|a l IH]; intros H.
  - exists []. split; [reflexivity | constructor].
  - destruct (H a) as (b & Hb & HP); [left|].
    destruct IH as (bs & Hbs & HPs); [intros a' Ha'; apply H; right; exact Ha'|].
    exists (b :: bs). cbn [res_mapM]. rewrite Hb, Hbs. split; [reflexivity|].
    constructor; assumption.
Qed.

Lemma arange_spec (zero_step : exn) (total step : Q) :
  0 < total -> 0 < step ->
  let n := Z.to_nat (Qceiling (total / step)) in
  np_arange0 zero_step total step = Ok (grid step n) /\
  (0 < n)%nat /\
  forall k, (k < n)%nat -> inject_Z (Z.of_nat k) * step < total.
Proof.
  intros Ht Hs n. unfold np_arange0.
  destruct (Qeq_bool step 0) eqn:E; [apply Qeq_bool_iff in E; lra|].
  split; [reflexivity|].
  assert (Hq : 0 < total / step) by (apply Qlt_shift_div_l; lra).
  pose proof (Qle_ceiling (total / step)) as Hup.
  pose proof (Qceiling_lt (total / step)) as Hlow.
  assert (Hpos : (0 < Qceiling (total / step))%Z).
  { rewrite Zlt_Qlt. change (inject_Z 0) with 0.
    apply (Qlt_le_trans _ _ _ Hq Hup). }
  split; [unfold n; lia|].
  intros k Hk.
  assert (Hk' : inject_Z (Z.of_nat k) <= inject_Z (Qceiling (total / step) - 1)).
  { rewrite <- Zle_Qle. unfold n in Hk. lia. }
  assert (Hlt : inject_Z (Z.of_nat k) < total / step)
    by (apply (Qle_lt_trans _ _ _ Hk' Hlow)).
  apply (Qmult_lt_r _ _ step Hs) in Hlt.
  assert (Heq : total / step * step == total) by (field; lra).
  rewrite Heq in Hlt. exact Hlt.
Qed.






(** ** C10: which arrays [interpolate_brunnels] writes *)

Section StoreLoop.
Variables (start_dists end_dists : list Q) (distance_delta : Q) (dt : dtype).

(** The loop on the object [ele_brunnel] computes what the loop on
    values computes, and stores it in that object only. *)
Lemma store_correct_loop (xs : list Q) :
  forall (h h' : gmap nat (list Q)) (ele_brunnel : nat) (a : list Q) (i : nat),
    h !! ele_brunnel = Some a ->
    Store.correct_loop start_dists end_dists distance_delta dt h ele_brunnel i xs = Ok h' ->
    exists out,
      correct_loop start_dists end_dists distance_delta dt a i xs = Ok out /\
      h' = <[ele_brunnel:=out]> h.
Proof.
  induction xs as [|x xs IH]; intros h h' l a i Ha H; cbn [Store.correct_loop] in H.
  - injection H as <-. exists a. split; [reflexivity|]. symmetry. apply insert_id, Ha.
  - rewrite Ha in H. cbn [of_option mbind res_bind] in H.
    apply bind_Ok in H as (a' & Hstep & H).
    apply (IH _ _ _ a') in H as (out & Hout & ->); [|apply lookup_insert_eq].
    exists out. cbn [correct_loop]. rewrite Hstep. split; [exact Hout|].
    apply insert_insert_eq.
Qed.
End StoreLoop.

(** [interpolate_brunnels] leaves every array that existed when it was
    called as it was; the corrected values are in the array it returns,
    which is a new object unless the function returns at once with the
    array it was given. *)
Lemma interpolate_brunnels_copies (dt : dtype) (h h' : gmap nat (list Q))
    (elevation distances r : nat) (ele dist : list Q)
    (brunnels : list Brunnel) (distance_delta : Q) (construct_brunnels : bool)
    (max_bridge_length max_tunnel_length construct_brunnel_thresh : Q) :
  h !! elevation = Some ele -> h !! distances = Some dist ->
  Store.interpolate_brunnels dt h elevation distances brunnels distance_delta
    construct_brunnels max_bridge_length max_tunnel_length construct_brunnel_thresh
  = Ok (r, h') ->
  (forall l, is_Some (h !! l) -> h' !! l = h !! l) /\
  (exists out,
     interpolate_brunnels dt ele dist brunnels distance_delta construct_brunnels
       max_bridge_length max_tunnel_length construct_brunnel_thresh = Ok out /\
     h' !! r = Some out) /\
  ((r = elevation /\ brunnels = [] /\ construct_brunnels = false) \/ h !! r = None).
Proof.
  unfold Store.interpolate_brunnels. intros Hele Hdist H.
  rewrite Hele, Hdist in H. cbn [of_option mbind res_bind] in H.
  destruct (_ && _)%bool eqn:Hearly.
  - injection H as <- <-. apply andb_prop in Hearly as [Hnil Hc].
    split; [reflexivity|]. split.
    + exists ele. unfold interpolate_brunnels. rewrite Hnil, Hc. auto.
    + left. split; [reflexivity|]. destruct brunnels; [|discriminate].
      destruct construct_brunnels; [discriminate | auto].
  - apply bind_Ok in H as (final & Hfinal & H).
    apply bind_Ok in H as ([l' h1] & Hcopy & H).
    unfold Store.copy in Hcopy. rewrite Hele in Hcopy. cbn in Hcopy.
    injection Hcopy as <- <-.
    apply bind_Ok in H as (h2 & Hloop & H). injection H as <- <-.
    set (l' := fresh (dom h)) in *.
    assert (Hfresh : h !! l' = None) by (apply not_elem_of_dom, is_fresh).
    apply (store_correct_loop _ _ _ _ _ _ _ _ ele) in Hloop as (out & Hout & ->);
      [|apply lookup_insert_eq].
    rewrite insert_insert_eq.
    split; [intros l [a Hl]; apply lookup_insert_ne; congruence|].
    split; [|right; exact Hfresh].
    exists out. split; [|apply lookup_insert_eq].
    unfold interpolate_brunnels. rewrite Hearly, Hfinal. exact Hout.
Qed.

Section Stages.
Variable std_at : list Q -> nat -> nat -> Q.
Variable Mode : Type.
Variable savgol_filter : list Q -> nat -> nat -> Mode -> res (list Q).

(** [C10], as the code has it. The profile is a store holding the
    elevation array and the distances, with whatever else it holds.
    [adjust_forest_height] writes its values into the elevation array it
    is given and returns that array. [interpolate_brunnels] and
    [smooth_ele] write into no array that existed before the call: the
    first returns a copy holding the corrected values (or, with nothing
    to do, the array it was given), the second the new array of
    [savgol_filter]. No stage changes any other array, the distances
    among them. *)
Theorem stages_write_elevation_only (dt : dtype) (h : gmap nat (list Q))
    (elevation distances : nat) (ele dist : list Q)
    (brunnels : list Brunnel) (distance_delta : Q) (construct_brunnels : bool)
    (max_bridge_length max_tunnel_length construct_brunnel_thresh : Q)
    (window_size : nat) (std_thresh sub_factor clip : Q)
    (smooth_window poly_order : nat) (mode : Mode) :
  h !! elevation = Some ele -> h !! distances = Some dist -> elevation <> distances ->
  (forall r h',
     Store.interpolate_brunnels dt h elevation distances brunnels distance_delta
       construct_brunnels max_bridge_length max_tunnel_length construct_brunnel_thresh
     = Ok (r, h') ->
     (forall l, is_Some (h !! l) -> h' !! l = h !! l) /\
     h' !! elevation = Some ele /\ h' !! distances = Some dist /\
     (exists out,
        interpolate_brunnels dt ele dist brunnels distance_delta construct_brunnels
          max_bridge_length max_tunnel_length construct_brunnel_thresh = Ok out /\
        h' !! r = Some out) /\
     ((r = elevation /\ brunnels = [] /\ construct_brunnels = false) \/ h !! r = None)) /\
  (exists h',
     Store.adjust_forest_height std_at h elevation window_size std_thresh sub_factor clip
     = Ok (elevation, h') /\
     h' !! elevation
     = Some (adjust_forest_height std_at ele window_size std_thresh sub_factor clip) /\
     h' !! distances = Some dist /\
     forall l, l <> elevation -> h' !! l = h !! l) /\
  (forall r h',
     Store.smooth_ele Mode savgol_filter h elevation smooth_window poly_order mode
     = Ok (r, h') ->
     (forall l, is_Some (h !! l) -> h' !! l = h !! l) /\
     h' !! elevation = Some ele /\ h' !! distances = Some dist /\
     (exists out,
        savgol_filter ele smooth_window poly_order mode = Ok out /\ h' !! r = Some out) /\
     h !! r = None).
Proof.
  intros Hele Hdist Hne. split; [|split].
  - intros r h' H.
    destruct (interpolate_brunnels_copies _ _ _ _ _ _ _ _ _ _ _ _ _ _ Hele Hdist H)
      as (Hold & Hout & Hr).
    split; [exact Hold|].
    split; [rewrite Hold; eauto|]. split; [rewrite Hold; eauto|]. auto.
  - unfold Store.adjust_forest_height. rewrite Hele. cbn [of_option mbind res_bind].
    eexists. split; [reflexivity|].
    split; [apply lookup_insert_eq|].
    split; [rewrite lookup_insert_ne by exact Hne; exact Hdist|].
    intros l Hl. apply lookup_insert_ne. congruence.
  - intros r h' H. unfold Store.smooth_ele in H.
    rewrite Hele in H. cbn [of_option mbind res_bind] in H.
    apply bind_Ok in H as (out & Hout & H). injection H as <- <-.
    set (r := fresh (dom h)) in *.
    assert (Hfresh : h !! r = None) by (apply not_elem_of_dom, is_fresh).
    assert (Hold : forall l, is_Some (h !! l) -> <[r:=out]> h !! l = h !! l).
    { intros l [a Hl]. apply lookup_insert_ne. congruence. }
    split; [exact Hold|].
    split; [rewrite Hold; eauto|]. split; [rewrite Hold; eauto|].
    split; [|exact Hfresh].
    exists out. split; [exact Hout | apply lookup_insert_eq].
Qed.
End Stages.

Lemma stages_write_elevation_only_witness :
  let ele := [80; 80; 80; 60; 50; 60; 80; 80] in
  let dist := [0; 10; 20; 30; 40; 50; 60; 70] in
  let h : gmap nat (list Q) := {[ 0%nat := ele; 1%nat := dist ]} in
  let savgol_filter := fun (x : list Q) (_ _ : nat) (_ : unit) => Ok x in
  (forall r h',
     Store.interpolate_brunnels float64 h 0 1 [mkBrunnel tunnel 30 50] 10 false 300 300 3
     = Ok (r, h') ->
     (forall l, is_Some (h !! l) -> h' !! l = h !! l) /\
     h' !! 0%nat = Some ele /\ h' !! 1%nat = Some dist /\
     (exists out,
        interpolate_brunnels float64 ele dist [mkBrunnel tunnel 30 50] 10 false 300 300 3
        = Ok out /\
        h' !! r = Some out) /\
     ((r = 0%nat /\ [mkBrunnel tunnel 30 50] = [] /\ false = false) \/ h !! r = None)) /\
  (exists h',
     Store.adjust_forest_height (window_std Qsqrt_floor) h 0 3 3 3 20 = Ok (0%nat, h') /\
     h' !! 0%nat = Some (adjust_forest_height (window_std Qsqrt_floor) ele 3 3 3 20) /\
     h' !! 1%nat = Some dist /\
     forall l, l <> 0%nat -> h' !! l = h !! l) /\
  (forall r h',
     Store.smooth_ele unit savgol_filter h 0 5 3 tt = Ok (r, h') ->
     (forall l, is_Some (h !! l) -> h' !! l = h !! l) /\
     h' !! 0%nat = Some ele /\ h' !! 1%nat = Some dist /\
     (exists out, savgol_filter ele 5%nat 3%nat tt = Ok out /\ h' !! r = Some out) /\
     h !! r = None).
Proof.
  cbv zeta.
  apply (stages_write_elevation_only (window_std Qsqrt_floor) unit (fun x _ _ _ => Ok x) float64
           {[ 0%nat := [80; 80; 80; 60; 50; 60; 80; 80];
              1%nat := [0; 10; 20; 30; 40; 50; 60; 70] ]}
           0 1 [80; 80; 80; 60; 50; 60; 80; 80] [0; 10; 20; 30; 40; 50; 60; 70]
           [mkBrunnel tunnel 30 50] 10 false 300 300 3 3 3 3 20 5 3 tt).
  - reflexivity.
  - reflexivity.
  - discriminate.
Defined.

(** [C10], as stated, fails for two of the three stages. After
    [interpolate_brunnels] the array it was given still holds the input
    elevations; the corrected values are in another array, the one it
    returns. [smooth_ele] returns the array of [savgol_filter], whatever
    that filter computes, and the array it was given is as before. *)
Lemma input_array_not_written :
  let elevation := [80; 80; 80; 60; 50; 60; 80; 80] in
  let h : gmap nat (list Q) :=
    {[ 0%nat := elevation; 1%nat := [0; 10; 20; 30; 40; 50; 60; 70] ]} in
  (exists r h' out,
     Store.interpolate_brunnels float64 h 0 1 [mkBrunnel tunnel 30 50] 10 false 300 300 3
       = Ok (r, h') /\
     r = 2%nat /\
     h' !! 0%nat = Some elevation /\
     h' !! r = Some out /\
     out !!! 4%nat == 80 /\
     elevation !!! 4%nat = 50) /\
  (forall (Mode : Type) (savgol_filter : list Q -> nat -> nat -> Mode -> res (list Q))
          (mode : Mode) (out : list Q),
     savgol_filter elevation 301%nat 3%nat mode = Ok out ->
     exists h',
       Store.smooth_ele Mode savgol_filter h 0 301 3 mode = Ok (2%nat, h') /\
       h' !! 0%nat = Some elevation /\
       h' !! 2%nat = Some out).
Proof.
  cbv zeta. split.
  - eexists. eexists. eexists.
    split; [vm_compute; reflexivity|].
    split; [reflexivity|]. split; [reflexivity|]. split; [reflexivity|].
    split; reflexivity.
  - intros Mode savgol_filter mode out Hout. unfold Store.smooth_ele.
    eexists. split.
    + change (({[ 0%nat := [80; 80; 80; 60; 50; 60; 80; 80];
                  1%nat := [0; 10; 20; 30; 40; 50; 60; 70] ]} : gmap nat (list Q)) !! 0%nat)
        with (Some [80; 80; 80; 60; 50; 60; 80; 80]).
      cbn [of_option mbind res_bind]. rewrite Hout. cbn [mbind res_bind]. reflexivity.
    + split; reflexivity.
Qed.

(** * Further properties of the code *)

(** ** [sample_coords]: the support window *)

Lemma window_offsets_cases (p_x p_y r_x r_y : Q) :
  window_offsets p_x p_y r_x r_y =
  Some (if decide (r_y <= p_y)
        then (if decide (p_x <= r_x) then (-2, 1, -2, 1)%Z else (-2, 1, -1, 2)%Z)
        else (if decide (r_x <= p_x) then (-1, 2, -1, 2)%Z else (-1, 2, -2, 1)%Z)).
Proof.
  unfold window_offsets.
  repeat match goal with
         | |- context [decide ?P] => destruct (decide P)
         end;
    try reflexivity; exfalso; lra.
Qed.

Lemma window_offsets_four_wide (p_x p_y r_x r_y : Q) :
  exists row_from row_to col_from col_to,
    window_offsets p_x p_y r_x r_y = Some (row_from, row_to, col_from, col_to) /\
    (row_to = row_from + 3 /\ col_to = col_from + 3 /\
     -2 <= row_from < 0 /\ -2 <= col_from < 0)%Z.
Proof.
  rewrite window_offsets_cases.
  destruct (decide (r_y <= p_y)); destruct (decide _);
    do 4 eexists; (split; [reflexivity | lia]).
Qed.

(** [X1] The four [if]s always assign the offsets, to a window of four rows
    and four columns around the cell. The rows are the two before and the
    one after the cell's row when the point is at or beyond the centre
    ordinate, the one before and the two after otherwise; on the centre
    abscissa the columns follow the later matching branch. *)
Theorem window_offsets_assigned (p_x p_y r_x r_y : Q) :
  window_offsets p_x p_y r_x r_y =
    Some (if decide (r_y <= p_y)
          then (if decide (p_x <= r_x) then (-2, 1, -2, 1)%Z else (-2, 1, -1, 2)%Z)
          else (if decide (r_x <= p_x) then (-1, 2, -1, 2)%Z else (-1, 2, -2, 1)%Z)) /\
  exists row_from row_to col_from col_to,
    window_offsets p_x p_y r_x r_y = Some (row_from, row_to, col_from, col_to) /\
    (row_to = row_from + 3 /\ col_to = col_from + 3 /\
     -2 <= row_from < 0 /\ -2 <= col_from < 0)%Z.
Proof.
  split; [apply window_offsets_cases | apply window_offsets_four_wide].
Qed.

Lemma py_slice_inside {A} (l : list A) (a b : Z) :
  (0 <= a <= b)%Z -> (b <= Z.of_nat (length l))%Z ->
  py_slice l a b = take (Z.to_nat (b - a)) (drop (Z.to_nat a) l).
Proof.
  intros Ha Hb. unfold py_slice, slice_bound.
  destruct (b <? 0)%Z eqn:Eb; [apply Z.ltb_lt in Eb; lia|].
  destruct (a <? 0)%Z eqn:Ea; [apply Z.ltb_lt in Ea; lia|].
  rewrite !Z.min_l by lia. reflexivity.
Qed.

(** A slice that starts before the first item and ends before the item
    its start wraps around to is empty. *)
Lemma py_slice_wrapped_empty {A} (l : list A) (a b : Z) :
  (a < 0)%Z -> (0 <= b)%Z -> (b <= Z.of_nat (length l) + a)%Z ->
  py_slice l a b = [].
Proof.
  intros Ha Hb Hab. unfold py_slice, slice_bound.
  destruct (b <? 0)%Z eqn:Eb; [apply Z.ltb_lt in Eb; lia|].
  destruct (a <? 0)%Z eqn:Ea; [|apply Z.ltb_ge in Ea; lia].
  replace (Z.to_nat _) with 0%nat by lia. reflexivity.
Qed.

Lemma lookup_concat_uniform {A} (n : nat) (ls : list (list A)) (a b : nat) :
  Forall (fun l => length l = n) ls -> (b < n)%nat ->
  concat ls !! (a * n + b)%nat = ls !! a ≫= (fun l => l !! b).
Proof.
  intros Hall Hb. revert a. induction Hall as [|l ls Hl _ IH]; intros a.
  - cbn. rewrite !lookup_nil. reflexivity.
  - cbn [concat]. destruct a as [|a].
    + cbn. rewrite lookup_app_l by lia. reflexivity.
    + rewrite lookup_app_r by (cbn; lia).
      replace (S a * n + b - length l)%nat with (a * n + b)%nat by (cbn; lia).
      apply IH.
Qed.

Lemma length_concat_uniform {A} (n : nat) (ls : list (list A)) :
  Forall (fun l => length l = n) ls -> length (concat ls) = (length ls * n)%nat.
Proof.
  induction 1 as [|l ls Hl _ IH]; [reflexivity|].
  cbn [concat length]. rewrite length_app, IH, Hl. lia.
Qed.

Lemma py_range_four (a : Z) :
  py_range a (a + 3 + 1) = [a + 0; a + 1; a + 2; a + 3]%Z.
Proof.
  unfold py_range. replace (a + 3 + 1 - a)%Z with 4%Z by lia. reflexivity.
Qed.

(** [X2] Away from the border of a rectangular grid the window holds sixteen
    elevations, and the sixteen coordinates generated for them are
    index-aligned with them: entry [4 * a + b] of each belongs to cell
    [(row_from + a, col_from + b)]. *)
Theorem support_window_aligned (elev : list (list Q)) (dem_xy : Z -> Z -> Q * Q)
    (row_from col_from : Z) (ncols : nat) :
  Forall (fun line => length line = ncols) elev ->
  (0 <= row_from)%Z -> (row_from + 3 < Z.of_nat (length elev))%Z ->
  (0 <= col_from)%Z -> (col_from + 3 < Z.of_nat ncols)%Z ->
  let z := support_values elev row_from (row_from + 3) col_from (col_from + 3) in
  let coords := support_coords dem_xy row_from (row_from + 3) col_from (col_from + 3) in
  length z = 16%nat /\ length coords = 16%nat /\
  forall a b, (a < 4)%nat -> (b < 4)%nat ->
    z !! (4 * a + b)%nat
      = elev !! (Z.to_nat row_from + a)%nat
          ≫= (fun line => line !! (Z.to_nat col_from + b)%nat) /\
    coords !! (4 * a + b)%nat
      = Some (dem_xy (row_from + Z.of_nat a)%Z (col_from + Z.of_nat b)%Z).
Proof.
  intros Hrect Hr0 Hr1 Hc0 Hc1. cbv zeta.
  unfold support_values, support_coords.
  rewrite (py_slice_inside elev) by lia.
  replace (Z.to_nat (row_from + 3 + 1 - row_from)) with 4%nat by lia.
  set (rows := take 4 (drop (Z.to_nat row_from) elev)).
  set (ls := (fun line => py_slice line col_from (col_from + 3 + 1)) <$> rows).
  assert (Hrows : length rows = 4%nat).
  { unfold rows. rewrite length_take, length_drop. lia. }
  assert (Hin : Forall (fun line => length line = ncols) rows).
  { unfold rows. apply Forall_take, Forall_drop, Hrect. }
  assert (Hls : Forall (fun l => length l = 4%nat) ls).
  { unfold ls. apply Forall_fmap. eapply Forall_impl; [exact Hin|].
    intros line Hline. unfold compose. cbv beta in Hline.
    rewrite py_slice_inside by lia.
    rewrite length_take, length_drop. lia. }
  split; [rewrite (length_concat_uniform 4 ls Hls); unfold ls; rewrite length_fmap; lia|].
  rewrite !py_range_four. split; [reflexivity|].
  intros a b Ha Hb. split.
  - replace (4 * a + b)%nat with (a * 4 + b)%nat by lia.
    rewrite (lookup_concat_uniform 4 ls a b Hls Hb).
    unfold ls. rewrite list_lookup_fmap. unfold rows.
    rewrite lookup_take_lt by lia. rewrite lookup_drop.
    destruct (elev !! (Z.to_nat row_from + a)%nat) as [line|] eqn:Hline; [|reflexivity].
    cbn [fmap option_fmap option_map mbind option_bind].
    assert (Hlen : length line = ncols).
    { rewrite Forall_forall in Hrect. apply Hrect. eapply list_elem_of_lookup_2, Hline. }
    rewrite py_slice_inside by lia.
    replace (Z.to_nat (col_from + 3 + 1 - col_from)) with 4%nat by lia.
    rewrite lookup_take_lt by lia. apply lookup_drop.
  - destruct a as [|[|[|[|a]]]]; [| | | |lia];
      (destruct b as [|[|[|[|b]]]]; [| | | |lia]); reflexivity.
Qed.


Lemma length_support_coords (dem_xy : Z -> Z -> Q * Q) (row_from col_from : Z) :
  length (support_coords dem_xy row_from (row_from + 3) col_from (col_from + 3)) = 16%nat.
Proof. unfold support_coords. rewrite !py_range_four. reflexivity. Qed.

(** [X3] On the first row of a raster of at least four rows the window
    reaches before the first row: the row slice wraps around and is
    empty, and the surface is fitted to sixteen coordinates and no
    elevation. *)
Theorem sample_coords_first_row (elev : list (list Q)) (dem_index : Q -> Q -> Z * Z)
    (dem_xy : Z -> Z -> Q * Q) (interp2d : list Q -> list Q -> list Q -> Q -> Q -> res Q)
    (p_x p_y : Q) (col : Z) :
  dem_index p_x p_y = (0%Z, col) ->
  (4 <= length elev)%nat ->
  exists coords : list (Q * Q),
    length coords = 16%nat /\
    sample_coords elev dem_index dem_xy interp2d p_x p_y true =
    match interp2d coords.*1 coords.*2 [] p_x p_y with
    | Ok v => inr v
    | Raise e => inl (Builtin e)
    end.
Proof.
  intros Hindex Hrows. unfold sample_coords. rewrite Hindex. cbn [negb].
  destruct (dem_xy 0%Z col) as [r_x r_y].
  destruct (window_offsets_four_wide p_x p_y r_x r_y)
    as (rf & rt & cf & ct & -> & -> & -> & Hrf & Hcf).
  rewrite !Z.add_0_r.
  exists (support_coords dem_xy rf (rf + 3) (cf + col) (cf + 3 + col)).
  replace (cf + 3 + col)%Z with (cf + col + 3)%Z by lia.
  split; [apply length_support_coords|].
  unfold support_values. rewrite (py_slice_wrapped_empty elev) by lia. reflexivity.
Qed.

Lemma sample_coords_first_row_witness :
  exists coords : list (Q * Q),
    length coords = 16%nat /\
    sample_coords [[1; 2; 3; 4]; [5; 6; 7; 8]; [9; 10; 11; 12]; [13; 14; 15; 16]]
      (fun _ _ => (0%Z, 2%Z)) (fun r c => (inject_Z c, inject_Z r))
      (fun _ _ z _ _ => of_option ValueError (head z)) 2 0 true =
    match (fun _ _ z _ _ => of_option ValueError (head z))
            coords.*1 coords.*2 ([] : list Q) (2 : Q) (0 : Q) with
    | Ok v => inr v
    | Raise e => inl (Builtin e)
    end.
Proof.
  apply (sample_coords_first_row
           [[1; 2; 3; 4]; [5; 6; 7; 8]; [9; 10; 11; 12]; [13; 14; 15; 16]]
           (fun _ _ => (0%Z, 2%Z)) (fun r c => (inject_Z c, inject_Z r))
           (fun _ _ z _ _ => of_option ValueError (head z)) 2 0 2%Z).
  - reflexivity.
  - cbn. lia.
Defined.

Lemma support_window_aligned_witness :
  let elev := [[1; 2; 3; 4]; [5; 6; 7; 8]; [9; 10; 11; 12]; [13; 14; 15; 16]] in
  let dem_xy := fun r c : Z => (inject_Z c, inject_Z r) in
  let z := support_values elev 0 (0 + 3) 0 (0 + 3) in
  let coords := support_coords dem_xy 0 (0 + 3) 0 (0 + 3) in
  length z = 16%nat /\ length coords = 16%nat /\
  forall a b, (a < 4)%nat -> (b < 4)%nat ->
    z !! (4 * a + b)%nat
      = elev !! (Z.to_nat 0 + a)%nat ≫= (fun line => line !! (Z.to_nat 0 + b)%nat) /\
    coords !! (4 * a + b)%nat = Some (dem_xy (0 + Z.of_nat a)%Z (0 + Z.of_nat b)%Z).
Proof.
  apply (support_window_aligned
           [[1; 2; 3; 4]; [5; 6; 7; 8]; [9; 10; 11; 12]; [13; 14; 15; 16]]
           (fun r c : Z => (inject_Z c, inject_Z r)) 0 0 4).
  - repeat constructor.
  - lia.
  - cbn. lia.
  - lia.
  - lia.
Defined.

(** ** [elevation_profile]: the sample distances *)

Lemma StronglySorted_lookup_intro {A} (R : A -> A -> Prop) (l : list A) :
  (forall i j x y, (i < j)%nat -> l !! i = Some x -> l !! j = Some y -> R x y) ->
  StronglySorted R l.
Proof.
  induction l as [|a l IH]; intros H; constructor.
  - apply IH. intros i j x y Hij Hi Hj. exact (H (S i) (S j) x y ltac:(lia) Hi Hj).
  - apply Forall_lookup. intros j y Hj. exact (H 0%nat (S j) a y ltac:(lia) eq_refl Hj).
Qed.

Lemma lookup_grid (step : Q) (n k : nat) :
  (k < n)%nat -> grid step n !! k = Some (inject_Z (Z.of_nat k) * step).
Proof.
  intros Hk. unfold grid. rewrite list_lookup_fmap, lookup_seq_lt by lia. reflexivity.
Qed.

Lemma length_grid (step : Q) (n : nat) : length (grid step n) = n.
Proof. unfold grid. rewrite length_fmap. apply length_seq. Qed.


(** The grid followed by a distance beyond it is strictly increasing. *)
Lemma grid_snoc_sorted (step total : Q) (n : nat) :
  0 < step ->
  (forall k, (k < n)%nat -> inject_Z (Z.of_nat k) * step < total) ->
  StronglySorted Qlt (grid step n ++ [total]).
Proof.
  intros Hs Hbelow. apply StronglySorted_lookup_intro. intros i j x y Hij Hi Hj.
  assert (Hjn : (j <= n)%nat).
  { apply lookup_lt_Some in Hj. rewrite length_app, length_grid in Hj. cbn in Hj. lia. }
  rewrite lookup_app_l in Hi by (rewrite length_grid; lia).
  rewrite lookup_grid in Hi by lia. injection Hi as <-.
  destruct (decide (j = n)) as [->|Hne].
  - rewrite lookup_app_r in Hj by (rewrite length_grid; lia).
    rewrite length_grid, Nat.sub_diag in Hj. injection Hj as <-. apply Hbelow. lia.
  - rewrite lookup_app_l in Hj by (rewrite length_grid; lia).
    rewrite lookup_grid in Hj by lia. injection Hj as <-.
    apply Qmult_lt_r; [exact Hs|]. rewrite <- Zlt_Qlt. lia.
Qed.

Section ProfileProperties.
Variable line_length : Q.
Variable line_interpolate : Q -> Q * Q.
Variable line_end : Q * Q.
Variable sample : Q -> Q -> bool -> sample_exn + Q.

Lemma sample_points_loop_inr (interpolated : bool) (sample_points : list (Q * Q))
    (xs ys eles : list Q) :
  sample_points_loop sample interpolated sample_points = inr (xs, ys, eles) ->
  xs = sample_points.*1 /\ ys = sample_points.*2 /\
  Forall2 (fun p e => sample p.1 p.2 interpolated = inr e) sample_points eles.
Proof.
  revert xs ys eles. induction sample_points as [|p pts IH]; intros xs ys eles H;
    cbn [sample_points_loop] in H.
  - injection H as <- <- <-. repeat split. constructor.
  - destruct (sample p.1 p.2 interpolated) as [e|ele] eqn:Hs; [discriminate|].
    destruct (sample_points_loop sample interpolated pts) as [e|[[xs' ys'] eles']];
      [discriminate|].
    injection H as <- <- <-. destruct (IH xs' ys' eles' eq_refl) as (-> & -> & Hall).
    repeat split. constructor; assumption.
Qed.

End ProfileProperties.


(** ** [ele_to_incl] *)

Section InclinationProperties.
Variable arctan : Q -> Q.

Lemma slope_at_Ok (elevation distances : list Q) (degrees : bool) (i : nat) :
  StronglySorted Qlt distances ->
  (length elevation <= length distances)%nat ->
  (S i < length elevation)%nat ->
  exists e0 e1 d0 d1 q,
    elevation !! i = Some e0 /\ elevation !! S i = Some e1 /\
    distances !! i = Some d0 /\ distances !! S i = Some d1 /\
    d0 < d1 /\ q * (d1 - d0) == e1 - e0 /\
    slope_at arctan elevation distances degrees i
      = Ok (if degrees then arctan q else q * 1000).
Proof.
  intros Hs Hlen Hi.
  destruct (lookup_lt_is_Some_2 elevation i) as [e0 He0]; [lia|].
  destruct (lookup_lt_is_Some_2 elevation (S i)) as [e1 He1]; [lia|].
  destruct (lookup_lt_is_Some_2 distances i) as [d0 Hd0]; [lia|].
  destruct (lookup_lt_is_Some_2 distances (S i)) as [d1 Hd1]; [lia|].
  assert (Hlt : d0 < d1) by (apply (sorted_lookup_lt distances i (S i)); auto).
  exists e0, e1, d0, d1, ((e1 - e0) / (d1 - d0)).
  repeat (split; [assumption|]). split; [field; lra|].
  unfold slope_at, np_div. rewrite He0, He1, Hd0, Hd1. cbn [of_option mbind res_bind].
  destruct (Qeq_bool (d1 - d0) 0) eqn:E; [apply Qeq_bool_iff in E; lra|]. reflexivity.
Qed.

Lemma ele_to_incl_Ok (elevation distances : list Q) (degrees : bool) :
  StronglySorted Qlt distances ->
  (length elevation <= length distances)%nat ->
  exists slopes,
    ele_to_incl arctan elevation distances degrees = Ok slopes /\
    length slopes = (length elevation - 1)%nat /\
    forall i, (S i < length elevation)%nat ->
      slope_at arctan elevation distances degrees i = of_option IndexError (slopes !! i).
Proof.
  intros Hs Hlen. unfold ele_to_incl.
  destruct (res_mapM_Ok (slope_at arctan elevation distances degrees)
              (fun i s => slope_at arctan elevation distances degrees i = Ok s)
              (seq 0 (length elevation - 1))) as (slopes & Hok & Hall).
  { intros i Hi. apply elem_of_seq in Hi.
    destruct (slope_at_Ok elevation distances degrees i Hs Hlen) as (? & ? & ? & ? & q & H);
      [lia|].
    eexists. split; [apply H | apply H]. }
  exists slopes. split; [exact Hok|].
  pose proof (Forall2_length _ _ _ Hall) as Hl. rewrite length_seq in Hl.
  split; [lia|]. intros i Hi.
  destruct (lookup_lt_is_Some_2 slopes i) as [sl Hsl]; [lia|].
  rewrite Hsl. cbn [of_option].
  eapply (Forall2_lookup_lr _ _ _ i i sl Hall); [|exact Hsl].
  apply lookup_seq_lt. lia.
Qed.

(** [X5] The slope length law, and what a slope is: for strictly increasing
    distances that cover the elevations, [ele_to_incl] returns one slope
    per consecutive pair, and slope [i] times the run gives back the rise
    (in permille, or through the arctangent for degrees). *)
Theorem ele_to_incl_spec (elevation distances : list Q) (degrees : bool) :
  StronglySorted Qlt distances ->
  (length elevation <= length distances)%nat ->
  exists slopes,
    ele_to_incl arctan elevation distances degrees = Ok slopes /\
    length slopes = (length elevation - 1)%nat /\
    forall i e0 e1 d0 d1,
      elevation !! i = Some e0 -> elevation !! S i = Some e1 ->
      distances !! i = Some d0 -> distances !! S i = Some d1 ->
      exists q,
        q * (d1 - d0) == e1 - e0 /\
        slopes !! i = Some (if degrees then arctan q else q * 1000).
Proof.
  intros Hs Hlen.
  destruct (ele_to_incl_Ok elevation distances degrees Hs Hlen) as (slopes & Hok & Hl & Hat).
  exists slopes. split; [exact Hok|]. split; [exact Hl|].
  intros i e0 e1 d0 d1 He0 He1 Hd0 Hd1.
  assert (Hi : (S i < length elevation)%nat) by (apply lookup_lt_Some in He1; exact He1).
  destruct (slope_at_Ok elevation distances degrees i Hs Hlen Hi)
    as (e0' & e1' & d0' & d1' & q & H0 & H1 & H2 & H3 & _ & Hq & Hslope).
  exists q. split; [congruence|].
  rewrite (Hat i Hi) in Hslope.
  destruct (slopes !! i); [cbn in Hslope; congruence | discriminate].
Qed.
End InclinationProperties.

Lemma ele_to_incl_spec_witness :
  exists slopes,
    ele_to_incl (fun q => q) [0; 10; 5] [0; 10; 20] false = Ok slopes /\
    length slopes = (length [0; 10; 5] - 1)%nat /\
    forall i e0 e1 d0 d1,
      [0; 10; 5] !! i = Some e0 -> [0; 10; 5] !! S i = Some e1 ->
      [0; 10; 20] !! i = Some d0 -> [0; 10; 20] !! S i = Some d1 ->
      exists q,
        q * (d1 - d0) == e1 - e0 /\
        slopes !! i = Some (if false then (fun q => q) q else q * 1000).
Proof.
  apply (ele_to_incl_spec (fun q => q) [0; 10; 5] [0; 10; 20] false).
  - repeat (constructor; [|repeat (constructor; [reflexivity|]); constructor]).
    constructor.
  - cbn. lia.
Defined.

(** ** [resample_ele]: degenerate input, sample points, composition *)






(** [X8] Without a positive last distance and a positive step there is
    nothing to resample: an empty distance array, a last distance that
    is not positive, or a negative step raise [IndexError]. *)
Theorem resample_ele_degenerate (elevation distances : list Q) (distance : Q) :
  distances = [] \/
  (exists total, last distances = Some total /\
     ((0 < distance /\ total <= 0) \/ (distance < 0 /\ 0 <= total))) ->
  resample_ele elevation distances distance = Raise IndexError.
Proof.
  intros [-> | (total & Hlast & Hsign)]; [reflexivity|].
  unfold resample_ele, np_arange0. rewrite Hlast. cbn [of_option mbind res_bind].
  destruct (Qeq_bool distance 0) eqn:E; [apply Qeq_bool_iff in E; lra|].
  assert (Hq : total / distance <= 0).
  { destruct Hsign as [[Hd Ht] | [Hd Ht]].
    - apply Qle_shift_div_r; [exact Hd | lra].
    - assert (Heq : total / distance == (- total) / (- distance)) by (field; lra).
      rewrite Heq. apply Qle_shift_div_r; lra. }
  assert (Hc : (Qceiling (total / distance) <= 0)%Z).
  { apply Qceiling_resp_le in Hq. exact Hq. }
  replace (Z.to_nat (Qceiling (total / distance))) with 0%nat by lia.
  reflexivity.
Qed.

Lemma resample_ele_degenerate_witness :
  resample_ele [100] [0] 10 = Raise IndexError.
Proof.
  apply (resample_ele_degenerate [100] [0] 10).
  right. exists 0. split; [reflexivity|]. left. split; [reflexivity | discriminate].
Defined.

(** ** [adjust_forest_height]: bounds *)

Lemma np_clip_bounds (x hi : Q) : 0 <= hi -> 0 <= np_clip x 0 hi <= hi.
Proof.
  intros Hhi. unfold np_clip.
  rewrite (Q.min_l 0 hi Hhi), (Q.max_r 0 hi Hhi). split.
  - apply Q.min_glb; [apply Q.le_max_r | exact Hhi].
  - apply Q.le_min_r.
Qed.

Section ForestBounds.
Variable std_at : list Q -> nat -> nat -> Q.

Lemma adjust_forest_height_lookup (elevation : list Q) (window_size : nat)
    (std_thresh sub_factor clip : Q) (i : nat) (e : Q) :
  elevation !! i = Some e ->
  adjust_forest_height std_at elevation window_size std_thresh sub_factor clip !! i =
  Some (adjust_sample std_thresh sub_factor clip e
          (if decide (2 <= window_size /\ window_size <= S i)%nat
           then Some (std_at elevation window_size i)
           else None)).
Proof.
  intros He. unfold adjust_forest_height.
  rewrite lookup_zip_with, He, (rolling_std_lookup std_at _ _ _ _ He). reflexivity.
Qed.

(** [X9] With a clip that is not negative, [adjust_forest_height] never
    raises a sample and never lowers one by more than [clip], whatever
    the threshold, the factor and the window. *)
Theorem adjust_forest_height_bounds (elevation : list Q) (window_size : nat)
    (std_thresh sub_factor clip : Q) (i : nat) (e : Q) :
  0 <= clip ->
  elevation !! i = Some e ->
  exists o,
    adjust_forest_height std_at elevation window_size std_thresh sub_factor clip !! i = Some o /\
    e - clip <= o <= e.
Proof.
  intros Hclip He. eexists. split; [exact (adjust_forest_height_lookup _ _ _ _ _ _ _ He)|].
  unfold adjust_sample.
  destruct (decide (2 <= window_size /\ window_size <= S i)%nat); [|lra].
  destruct (decide _); [|lra].
  match goal with
  | |- context [np_clip ?x 0 clip] => pose proof (np_clip_bounds x clip Hclip)
  end.
  lra.
Qed.

(** [X10] A profile shorter than the window, or a window of fewer than two
    samples, is returned as it is. *)
Theorem adjust_forest_height_short (elevation : list Q) (window_size : nat)
    (std_thresh sub_factor clip : Q) :
  (length elevation < window_size \/ window_size < 2)%nat ->
  adjust_forest_height std_at elevation window_size std_thresh sub_factor clip = elevation.
Proof.
  intros Hshort. apply list_eq. intros i.
  destruct (elevation !! i) as [e|] eqn:He.
  - rewrite (adjust_forest_height_lookup _ _ _ _ _ _ _ He).
    apply lookup_lt_Some in He.
    destruct (decide (2 <= window_size /\ window_size <= S i)%nat); [lia | reflexivity].
  - apply lookup_ge_None. apply lookup_ge_None in He.
    unfold adjust_forest_height. rewrite length_zip_with, length_rolling_std. lia.
Qed.
End ForestBounds.

Lemma adjust_forest_height_bounds_witness :
  exists o,
    adjust_forest_height (window_std Qsqrt_floor) [0; 4; 8] 3 3 3 20 !! 2%nat = Some o /\
    8 - 20 <= o <= 8.
Proof.
  apply (adjust_forest_height_bounds (window_std Qsqrt_floor) [0; 4; 8] 3 3 3 20 2 8).
  - discriminate.
  - reflexivity.
Defined.

Lemma adjust_forest_height_short_witness :
  adjust_forest_height (window_std Qsqrt_floor) [0; 4; 8] 12 3 3 20 = [0; 4; 8].
Proof.
  apply (adjust_forest_height_short (window_std Qsqrt_floor) [0; 4; 8] 12 3 3 20).
  left. cbn. lia.
Defined.

(** ** [interpolate_brunnels]: exceptions, constructed spans, values *)



Section ConstructedSpans.
Variables (elevation distances diff : list Q).
Variables (construct_brunnel_thresh max_bridge_length max_tunnel_length : Q).

Lemma find_return_spec (back : Q -> bool) (rest : list Q) :
  forall j0 j,
    (forall k, rest !! k = elevation !! (j0 + k)%nat) ->
    find_return back rest j0 = Some j ->
    (j0 <= j)%nat /\
    exists ej, elevation !! j = Some ej /\ back ej = true /\
      forall m em, (j0 <= m < j)%nat -> elevation !! m = Some em -> back em = false.
Proof.
  induction rest as [|e rest IH]; intros j0 j Hrest H; cbn [find_return] in H; [discriminate|].
  pose proof (Hrest 0%nat) as H0. rewrite Nat.add_0_r in H0. cbn in H0.
  destruct (back e) eqn:Hb.
  - injection H as <-. split; [lia|]. exists e. split; [auto|]. split; [exact Hb|].
    intros m em Hm. lia.
  - apply IH in H as (Hle & ej & Hej & Hback & Hbefore).
    + split; [lia|]. exists ej. split; [exact Hej|]. split; [exact Hback|].
      intros m em Hm Hem. destruct (decide (m = j0)) as [->|Hne].
      * congruence.
      * apply (Hbefore m em); [lia | exact Hem].
    + intros k. specialize (Hrest (S k)).
      change ((e :: rest) !! S k) with (rest !! k) in Hrest.
      etransitivity; [exact Hrest|]. f_equal. lia.
Qed.

Lemma scan_spans (fuel : nat) :
  forall (i : nat) (acc out : list Brunnel),
    Forall (constructed_span elevation distances diff construct_brunnel_thresh
              max_bridge_length max_tunnel_length) acc ->
    scan elevation distances diff construct_brunnel_thresh max_bridge_length
         max_tunnel_length fuel i acc = Ok out ->
    Forall (constructed_span elevation distances diff construct_brunnel_thresh
              max_bridge_length max_tunnel_length) out.
Proof.
  induction fuel as [|fuel IH]; intros i acc out Hacc H; cbn [scan] in H;
    destruct (length elevation <=? i)%nat;
    try (injection H as <-; exact Hacc); [discriminate|].
  apply bind_Ok in H as (d & Hd & H). apply bind_Ok in H as (ei & Hei & H).
  apply of_option_Ok in Hd, Hei.
  destruct (decide (d < construct_brunnel_thresh * -1)) as [Hdown|Hdown].
  - destruct (find_return _ _ _) as [j|] eqn:Hj; [|exact (IH _ _ _ Hacc H)].
    apply find_return_spec in Hj as (Hij & ej & Hej & Hback & Hbefore);
      [|intros k; apply lookup_drop].
    apply bind_Ok in H as (acc' & Hclose & H). apply (IH _ _ _) in H; [exact H|].
    unfold close_span in Hclose.
    apply bind_Ok in Hclose as (dj & Hdj & Hclose).
    apply bind_Ok in Hclose as (di & Hdi & Hclose).
    apply of_option_Ok in Hdj, Hdi.
    destruct (decide (dj - di <= max_bridge_length)); injection Hclose as <-; [|exact Hacc].
    apply Forall_app. split; [exact Hacc|]. constructor; [|constructor].
    exists i, j, d, ei, ej. cbn.
    split; [lia|]. repeat (split; [assumption|]).
    split; [apply bool_decide_eq_true in Hback; exact Hback|].
    split; [|assumption].
    intros m em Hm Hem. specialize (Hbefore m em ltac:(lia) Hem).
    apply bool_decide_eq_false in Hbefore. lra.
  - destruct (decide (construct_brunnel_thresh < d)) as [Hup|Hup]; [|exact (IH _ _ _ Hacc H)].
    destruct (find_return _ _ _) as [j|] eqn:Hj; [|exact (IH _ _ _ Hacc H)].
    apply find_return_spec in Hj as (Hij & ej & Hej & Hback & Hbefore);
      [|intros k; apply lookup_drop].
    apply bind_Ok in H as (acc' & Hclose & H). apply (IH _ _ _) in H; [exact H|].
    unfold close_span in Hclose.
    apply bind_Ok in Hclose as (dj & Hdj & Hclose).
    apply bind_Ok in Hclose as (di & Hdi & Hclose).
    apply of_option_Ok in Hdj, Hdi.
    destruct (decide (dj - di <= max_tunnel_length)); injection Hclose as <-; [|exact Hacc].
    apply Forall_app. split; [exact Hacc|]. constructor; [|constructor].
    exists i, j, d, ei, ej. cbn.
    split; [lia|]. repeat (split; [assumption|]).
    split; [apply bool_decide_eq_true in Hback; exact Hback|].
    split; [|assumption].
    intros m em Hm Hem. specialize (Hbefore m em ltac:(lia) Hem).
    apply bool_decide_eq_false in Hbefore. lra.
Qed.
End ConstructedSpans.

(** [X12] Every interval the construction scan yields runs from a sample [i]
    with a step beyond the threshold to the first later sample [j] whose
    elevation is back at the level of sample [i] (at or above it for a
    bridge, at or below it for a tunnel, every sample between them being
    strictly beyond that level), and is no longer than the limit of its
    kind. *)
Theorem construct_candidates_spans (elevation distances : list Q)
    (construct_brunnel_thresh max_bridge_length max_tunnel_length : Q)
    (constructed : list Brunnel) :
  construct_candidates elevation distances construct_brunnel_thresh
    max_bridge_length max_tunnel_length = Ok constructed ->
  exists diff,
    diff_signal elevation = Ok diff /\
    Forall (constructed_span elevation distances diff construct_brunnel_thresh
              max_bridge_length max_tunnel_length) constructed.
Proof.
  unfold construct_candidates. intros H. apply bind_Ok in H as (diff & Hdiff & H).
  exists diff. split; [exact Hdiff|].
  apply (scan_spans _ _ _ _ _ _ _ _ _ _ (Forall_nil_2 _) H).
Qed.

Lemma construct_candidates_spans_witness :
  exists diff,
    diff_signal [80; 80; 80; 60; 50; 60; 80; 80] = Ok diff /\
    Forall (constructed_span [80; 80; 80; 60; 50; 60; 80; 80]
              [0; 10; 20; 30; 40; 50; 60; 70] diff 3 300 300)
           [mkBrunnel tunnel (0 # 1) (10 # 1); mkBrunnel bridge (30 # 1) (50 # 1);
            mkBrunnel tunnel (60 # 1) (70 # 1)].
Proof.
  apply (construct_candidates_spans [80; 80; 80; 60; 50; 60; 80; 80]
           [0; 10; 20; 30; 40; 50; 60; 70] 3 300 300).
  reflexivity.
Defined.

(** A value on the line between its two points lies between their
    ordinates. *)
Lemma line_through_between (x1 x2 s e x v : Q) :
  x1 <= x <= x2 ->
  line_through (x1, s) (x2, e) x = Ok v ->
  (s <= e -> s <= v <= e) /\ (e <= s -> e <= v <= s).
Proof.
  intros Hx H. unfold line_through, np_div in H. cbn [fst snd] in H.
  destruct (Qeq_bool (x2 - x1) 0) eqn:E; [discriminate|].
  apply Qeq_bool_neq in E. injection H as <-.
  assert (HD : 0 < x2 - x1) by lra.
  set (t := (x - x1) / (x2 - x1)).
  assert (Ht0 : 0 <= t) by (apply Qle_shift_div_l; lra).
  assert (Ht1 : t <= 1) by (apply Qle_shift_div_r; lra).
  assert (Hv : (e - s) / (x2 - x1) * x + (s - (e - s) / (x2 - x1) * x1) == s + (e - s) * t)
    by (unfold t; field; lra).
  assert (Hv' : (e - s) / (x2 - x1) * x + (s - (e - s) / (x2 - x1) * x1)
                == e - (e - s) * (1 - t))
    by (unfold t; field; lra).
  split; intros Hse.
  - pose proof (Qmult_le_0_compat (e - s) t ltac:(lra) Ht0).
    pose proof (Qmult_le_0_compat (e - s) (1 - t) ltac:(lra) ltac:(lra)).
    split; [rewrite Hv | rewrite Hv']; lra.
  - pose proof (Qmult_le_0_compat (s - e) t ltac:(lra) Ht0) as H1.
    pose proof (Qmult_le_0_compat (s - e) (1 - t) ltac:(lra) ltac:(lra)) as H2.
    assert (H1' : (s - e) * t == - ((e - s) * t)) by ring.
    assert (H2' : (s - e) * (1 - t) == - ((e - s) * (1 - t))) by ring.
    split; [rewrite Hv' | rewrite Hv]; lra.
Qed.

(** [X13] The value written for a covered sample never overshoots: with a
    step that is not negative it lies between the two endpoint
    elevations the line is fitted to. *)
Theorem corrected_value_between (start_dists end_dists : list Q) (distance_delta : Q)
    (ele_brunnel : list Q) (x v : Q) :
  0 <= distance_delta ->
  sample_corrected start_dists end_dists distance_delta ele_brunnel x v ->
  exists k start_ele end_ele,
    argwhere x start_dists end_dists = [k] /\
    endpoint_elevations start_dists end_dists distance_delta ele_brunnel k
      = Ok (start_ele, end_ele) /\
    (start_ele <= end_ele -> start_ele <= v <= end_ele) /\
    (end_ele <= start_ele -> end_ele <= v <= start_ele).
Proof.
  intros Hdelta (k & sd & ed & s & e & Hk & Hsd & Hed & Hends & Hline).
  exists k, s, e. split; [exact Hk|]. split; [exact Hends|].
  destruct (argwhere_covers x start_dists end_dists k) as (sd' & ed' & Hsd' & Hed' & Hcov);
    [rewrite Hk; left|].
  assert (sd' = sd) as -> by congruence. assert (ed' = ed) as -> by congruence.
  apply (line_through_between (sd - distance_delta) (ed + distance_delta) s e x v);
    [lra | exact Hline].
Qed.

Lemma corrected_value_between_witness :
  let m := (90 - 80) / (50 + 10 - (30 - 10)) in
  let v := m * 40 + (80 - m * (30 - 10)) in
  exists k start_ele end_ele,
    argwhere 40 [30] [50] = [k] /\
    endpoint_elevations [30] [50] 10 [80; 80; 80; 60; 50; 60; 90; 80] k
      = Ok (start_ele, end_ele) /\
    (start_ele <= end_ele -> start_ele <= v <= end_ele) /\
    (end_ele <= start_ele -> end_ele <= v <= start_ele).
Proof.
  apply (corrected_value_between [30] [50] 10 [80; 80; 80; 60; 50; 60; 90; 80] 40).
  - discriminate.
  - exists 0%nat, 30, 50, 80, 90. repeat (split; [reflexivity|]). reflexivity.
Defined.

(** [X14] An interval at the border of the profile is bridged by a level
    line: when only one of the two buffered indices lies inside the
    profile, the elevation read there is used for both endpoints, and
    every sample of the interval is set to it. *)
Theorem flat_extrapolation (start_dists end_dists : list Q) (distance_delta : Q)
    (ele_brunnel : list Q) (k : nat) (sd ed : Q) :
  start_dists !! k = Some sd -> end_dists !! k = Some ed ->
  ~ distance_delta == 0 ->
  let start_idx := (py_round (sd / distance_delta) - 1)%Z in
  let end_idx := (py_round (ed / distance_delta) + 1)%Z in
  (forall e, (start_idx <= 0)%Z -> (end_idx < Z.of_nat (length ele_brunnel) - 1)%Z ->
     py_getitem ele_brunnel end_idx = Ok e ->
     endpoint_elevations start_dists end_dists distance_delta ele_brunnel k = Ok (e, e)) /\
  (forall s, (0 < start_idx)%Z -> (Z.of_nat (length ele_brunnel) - 1 <= end_idx)%Z ->
     py_getitem ele_brunnel start_idx = Ok s ->
     endpoint_elevations start_dists end_dists distance_delta ele_brunnel k = Ok (s, s)) /\
  (forall e x v,
     line_through (sd - distance_delta, e) (ed + distance_delta, e) x = Ok v -> v == e).
Proof.
  intros Hsd Hed Hne. cbv zeta.
  split; [|split].
  - intros e Hs He Hget. unfold endpoint_elevations.
    rewrite Hsd, Hed. cbn [of_option mbind res_bind].
    rewrite !round_div_Ok by exact Hne. cbn [mbind res_bind].
    destruct (decide (0 < py_round (sd / distance_delta) - 1)%Z); [lia|].
    destruct (decide _); [|lia].
    rewrite Hget. reflexivity.
  - intros s Hs He Hget. unfold endpoint_elevations.
    rewrite Hsd, Hed. cbn [of_option mbind res_bind].
    rewrite !round_div_Ok by exact Hne. cbn [mbind res_bind].
    destruct (decide (0 < py_round (sd / distance_delta) - 1)%Z); [|lia].
    rewrite Hget. cbn [mbind res_bind].
    destruct (decide _); [lia|]. reflexivity.
  - intros e x v H. unfold line_through, np_div in H. cbn [fst snd] in H.
    destruct (Qeq_bool (ed + distance_delta - (sd - distance_delta)) 0) eqn:E';
      [discriminate|].
    apply Qeq_bool_neq in E'. cbn [mbind res_bind] in H. injection H as <-.
    field. exact E'.
Qed.

Lemma flat_extrapolation_witness :
  let ele := [80; 60; 50; 60; 90; 80] in
  let start_idx := (py_round (0 / 10) - 1)%Z in
  let end_idx := (py_round (30 / 10) + 1)%Z in
  (forall e, (start_idx <= 0)%Z -> (end_idx < Z.of_nat (length ele) - 1)%Z ->
     py_getitem ele end_idx = Ok e ->
     endpoint_elevations [0] [30] 10 ele 0 = Ok (e, e)) /\
  (forall s, (0 < start_idx)%Z -> (Z.of_nat (length ele) - 1 <= end_idx)%Z ->
     py_getitem ele start_idx = Ok s ->
     endpoint_elevations [0] [30] 10 ele 0 = Ok (s, s)) /\
  (forall e x v, line_through (0 - 10, e) (30 + 10, e) x = Ok v -> v == e).
Proof.
  apply (flat_extrapolation [0] [30] 10 [80; 60; 50; 60; 90; 80] 0 0 30).
  - reflexivity.
  - reflexivity.
  - discriminate.
Defined.

Lemma interpolate_brunnels_samples_witness :
  0 <= 10 /\
  match interpolate_brunnels int64 [0; 10; 20; 50] [0; 10; 20; 24] [mkBrunnel bridge 0 24]
          10 false 300 300 3 with
  | Raise e => e = IndexError \/ e = AssertionError \/ e = ValueError \/ e = OverflowError
  | Ok out =>
    exists final,
      final_brunnels [0; 10; 20; 50] [0; 10; 20; 24] [mkBrunnel bridge 0 24]
        10 false 300 300 3 = Ok final /\
      length out = length [0; 10; 20; 50] /\
      (forall n, [0; 10; 20; 24] !! n = None -> out !! n = [0; 10; 20; 50] !! n) /\
      (forall n x, [0; 10; 20; 24] !! n = Some x ->
         (argwhere x (start_dist <$> final) (end_dist <$> final) = [] ->
            out !! n = [0; 10; 20; 50] !! n) /\
         (forall k, argwhere x (start_dist <$> final) (end_dist <$> final) = [k] ->
            exists v ele_n,
              working_array [0; 10; 20; 50] out n ele_n /\
              sample_corrected (start_dist <$> final) (end_dist <$> final) 10 ele_n x v /\
              out !! n = Some (astype int64 v)))
  end.
Proof.
  split; [discriminate|].
  apply (interpolate_brunnels_samples int64 [0; 10; 20; 50] [0; 10; 20; 24]
           [mkBrunnel bridge 0 24] 10 false 300 300 3).
  discriminate.
Defined.

Lemma line_through_points_witness :
  exists v1 v2,
    line_through (20, 80) (60, 90) (20, 80).1 = Ok v1 /\ v1 == (20, 80).2 /\
    line_through (20, 80) (60, 90) (60, 90).1 = Ok v2 /\ v2 == (60, 90).2.
Proof.
  apply (line_through_points (20, 80) (60, 90)). discriminate.
Defined.

(** ** [interpolate_brunnels_old]: the merge pass in general *)

Lemma loc_update_Some (i : nat) (f : Old.Row -> Old.Row) (table : list Old.Row) (r : Old.Row) :
  table !! i = Some r -> Old.loc_update i f table = <[i:=f r]> table.
Proof. intros H. unfold Old.loc_update. rewrite H. reflexivity. Qed.

(** The step of the merge loop on a row that starts within
    [merge_distance] of the end its predecessor has in the table. *)
Lemma merge_step_merges (merge_distance : Q) (table : list Old.Row) (drop_idx : list nat)
    (k' : nat) (prev cur brunnel : Old.Row) :
  table !! k' = Some prev -> table !! S k' = Some cur ->
  Old.start_dist brunnel <= Old.end_dist prev + merge_distance ->
  Old.merge_step merge_distance (table, drop_idx) (S k') brunnel =
  (<[S k':=Old.mkRow ((Old.geom prev ++ Old.geom brunnel) ++ Old.geom brunnel)
                     (Old.start_dist prev) (Old.end_dist cur)]>
     (<[k':=Old.mkRow (Old.geom prev ++ Old.geom brunnel) (Old.start_dist prev)
                      (Old.end_dist brunnel)]> table),
   drop_idx ++ [S k']).
Proof.
  intros Hprev Hcur Hle. unfold Old.merge_step.
  replace (S k' - 1)%nat with k' by lia. rewrite Hprev.
  destruct (decide _) as [_|]; [|contradiction].
  assert (Hk' : (k' < length table)%nat) by (eapply lookup_lt_Some, Hprev).
  rewrite (loc_update_Some k' _ table prev Hprev).
  rewrite (loc_update_Some k' _ _ (Old.set_end_dist (Old.end_dist brunnel) prev))
    by (apply list_lookup_insert_eq; exact Hk').
  rewrite list_insert_insert_eq.
  rewrite list_lookup_insert_eq by exact Hk'. cbn [default].
  cbn [id Old.set_geom Old.set_end_dist Old.geom Old.start_dist Old.end_dist].
  match goal with
  | |- context [Old.loc_update (S k') ?f (<[k':=?p]> table)] =>
    rewrite (loc_update_Some (S k') f (<[k':=p]> table) cur)
      by (rewrite list_lookup_insert_ne by lia; exact Hcur)
  end.
  match goal with
  | |- context [Old.loc_update (S k') ?f (<[S k':=?c]> ?t)] =>
    rewrite (loc_update_Some (S k') f (<[S k':=c]> t) c)
      by (apply list_lookup_insert_eq; rewrite length_insert; eapply lookup_lt_Some, Hcur)
  end.
  rewrite list_insert_insert_eq. reflexivity.
Qed.

Lemma merge_step_keeps (merge_distance : Q) (table : list Old.Row) (drop_idx : list nat)
    (k' : nat) (prev brunnel : Old.Row) :
  table !! k' = Some prev ->
  ~ Old.start_dist brunnel <= Old.end_dist prev + merge_distance ->
  Old.merge_step merge_distance (table, drop_idx) (S k') brunnel = (table, drop_idx).
Proof.
  intros Hprev Hno. unfold Old.merge_step.
  replace (S k' - 1)%nat with k' by lia. rewrite Hprev.
  destruct (decide _); [contradiction | reflexivity].
Qed.

Section MergePass.
Variable merge_distance : Q.
Variable orig : list Old.Row.

Lemma merge_inv_start : merge_inv merge_distance orig 0 orig [].
Proof.
  split; [reflexivity|]. split; [reflexivity|].
  split; [intros j r t Hj; lia|].
  split; [intros i; split; [intros Hi; inversion Hi | intros [Hi _]; lia]|].
  split; intros j r _ _ Hj; lia.
Qed.

Lemma merge_step_inv (k : nat) (table : list Old.Row) (drop_idx : list nat) (c : Old.Row) :
  merge_inv merge_distance orig k table drop_idx ->
  orig !! k = Some c ->
  merge_inv merge_distance orig (S k)
    (Old.merge_step merge_distance (table, drop_idx) k c).1
    (Old.merge_step merge_distance (table, drop_idx) k c).2.
Proof.
  intros (Hlen & Hrest & Hend & Hdrop & Hfinal & Hlast) Hc.
  pose proof (lookup_lt_Some _ _ _ Hc) as Hk.
  destruct k as [|k'].
  - (* the first row: nothing to merge into *)
    cbn [Old.merge_step fst snd]. split; [exact Hlen|].
    split; [intros j Hj; apply Hrest; lia|].
    split; [intros j r t [= ->] Hr Ht; rewrite Hrest in Ht by lia; congruence|].
    split; [intros i; rewrite Hdrop; split; intros [Hi HD];
            [lia | destruct i; [contradiction | lia]]|].
    split; [intros j r _ _ Hj; lia|].
    intros j r Hr _ [= ->]. rewrite Hrest by lia. exact Hr.
  - destruct (lookup_lt_is_Some_2 table k') as [prev Hprev]; [lia|].
    destruct (lookup_lt_is_Some_2 orig k') as [rp Hrp]; [lia|].
    pose proof (Hend k' rp prev eq_refl Hrp Hprev) as Hpe.
    assert (Hcur : table !! S k' = Some c) by (rewrite Hrest by lia; exact Hc).
    assert (HD : merges_into_previous merge_distance orig (S k') <->
                 Old.start_dist c <= Old.end_dist prev + merge_distance).
    { cbn [merges_into_previous]. rewrite Hrp, Hc, Hpe. reflexivity. }
    destruct (decide (Old.start_dist c <= Old.end_dist prev + merge_distance)) as [Hm|Hm].
    + rewrite (merge_step_merges _ _ _ _ prev c c Hprev Hcur Hm). cbn [fst snd].
      split; [rewrite !length_insert; exact Hlen|].
      split; [intros j Hj; rewrite !list_lookup_insert_ne by lia; apply Hrest; lia|].
      split.
      { intros j r t [= ->] Hr Ht.
        rewrite list_lookup_insert_eq in Ht by (rewrite length_insert; lia).
        injection Ht as <-. cbn. congruence. }
      split.
      { intros i. rewrite elem_of_app, Hdrop, list_elem_of_singleton. split.
        - intros [[Hi Hd] | ->]; [split; [lia | exact Hd] | split; [lia | apply HD, Hm]].
        - intros [Hi Hd]. destruct (decide (i = S k')) as [->|Hne]; [right; reflexivity|].
          left. split; [lia | exact Hd]. }
      split.
      { intros j r Hr Hnd Hj. destruct (decide (j = k')) as [->|Hne].
        - rewrite list_lookup_insert_ne by lia.
          rewrite list_lookup_insert_eq by lia.
          assert (prev = r) as -> by (specialize (Hlast k' r Hr Hnd eq_refl); congruence).
          rewrite Hc. cbn [merged_row].
          destruct (decide _) as [_|]; [reflexivity | contradiction].
        - rewrite !list_lookup_insert_ne by lia. apply Hfinal; [exact Hr | exact Hnd | lia]. }
      intros j r Hr Hnd [= ->]. exfalso. apply Hnd, HD, Hm.
    + rewrite (merge_step_keeps _ _ _ _ prev c Hprev Hm). cbn [fst snd].
      split; [exact Hlen|].
      split; [intros j Hj; apply Hrest; lia|].
      split; [intros j r t [= ->] Hr Ht; congruence|].
      split.
      { intros i. rewrite Hdrop. split.
        - intros [Hi Hd]. split; [lia | exact Hd].
        - intros [Hi Hd]. destruct (decide (i = S k')) as [->|Hne];
            [exfalso; apply Hm, HD, Hd | split; [lia | exact Hd]]. }
      split.
      { intros j r Hr Hnd Hj. destruct (decide (j = k')) as [->|Hne].
        - rewrite (Hlast k' r Hr Hnd eq_refl). rewrite Hc. cbn [merged_row].
          assert (prev = r) as <- by (specialize (Hlast k' r Hr Hnd eq_refl); congruence).
          destruct (decide _); [contradiction | reflexivity].
        - apply Hfinal; [exact Hr | exact Hnd | lia]. }
      intros j r Hr _ [= ->]. congruence.
Qed.

Lemma merge_loop_inv (rows : list Old.Row) :
  forall (k : nat) (table : list Old.Row) (drop_idx : list nat),
    rows = drop k orig -> (k <= length orig)%nat ->
    merge_inv merge_distance orig k table drop_idx ->
    merge_inv merge_distance orig (length orig)
      (Old.merge_loop merge_distance (table, drop_idx) k rows).1
      (Old.merge_loop merge_distance (table, drop_idx) k rows).2.
Proof.
  induction rows as [|c rows IH]; intros k table drop_idx Hrows Hk Hinv.
  - cbn [Old.merge_loop fst snd].
    assert (k = length orig) as ->; [|exact Hinv].
    symmetry in Hrows. apply (f_equal length) in Hrows.
    rewrite length_drop in Hrows. cbn in Hrows. lia.
  - cbn [Old.merge_loop].
    assert (Hc : orig !! k = Some c).
    { rewrite <- (Nat.add_0_r k), <- lookup_drop, <- Hrows. reflexivity. }
    pose proof (merge_step_inv k table drop_idx c Hinv Hc) as Hstep.
    destruct (Old.merge_step merge_distance (table, drop_idx) k c) as [table' drop'].
    apply IH; [|eapply lookup_lt_Some, Hc | exact Hstep].
    rewrite (drop_S orig c k Hc) in Hrows. congruence.
Qed.
End MergePass.

Lemma filter_imap_ext {A B C} (P : nat * A -> Prop) (Q : nat * B -> Prop)
    `{!forall p, Decision (P p)} `{!forall p, Decision (Q p)}
    (f : nat * A -> C) (g : nat * B -> C) (T : list A) :
  forall (O : list B) (n : nat),
    length T = length O ->
    (forall j t o, T !! j = Some t -> O !! j = Some o ->
       (P ((n + j)%nat, t) <-> Q ((n + j)%nat, o)) /\
       (P ((n + j)%nat, t) -> f ((n + j)%nat, t) = g ((n + j)%nat, o))) ->
    f <$> filter P (imap (fun i => pair (n + i)%nat) T)
    = g <$> filter Q (imap (fun i => pair (n + i)%nat) O).
Proof.
  induction T as [|t T IH]; intros [|o O] n Hlen Hext; try discriminate; [reflexivity|].
  rewrite !imap_cons, !filter_cons.
  destruct (Hext 0%nat t o eq_refl eq_refl) as [Hiff Heq].
  assert (Htail : f <$> filter P (imap ((fun i => pair (n + i)%nat) ∘ S) T)
                  = g <$> filter Q (imap ((fun i => pair (n + i)%nat) ∘ S) O)).
  { rewrite (imap_ext _ (fun i => pair (S n + i)%nat) T)
      by (intros i x _; cbn; f_equal; lia).
    rewrite (imap_ext _ (fun i => pair (S n + i)%nat) O)
      by (intros i x _; cbn; f_equal; lia).
    apply IH; [cbn in Hlen; lia|].
    intros j t' o' Ht Ho. replace (S n + j)%nat with (n + S j)%nat by lia.
    apply (Hext (S j)); assumption. }
  destruct (decide (P ((n + 0)%nat, t))) as [HP|HP];
    destruct (decide (Q ((n + 0)%nat, o))) as [HQ|HQ];
    [|exfalso; tauto|exfalso; tauto|exact Htail].
  cbn [fmap list_fmap]. rewrite (Heq HP). f_equal. exact Htail.
Qed.

Lemma merge_loop_final (merge_distance : Q) (table : list Old.Row) :
  merge_inv merge_distance table (length table)
    (Old.merge_loop merge_distance (table, []) 0 table).1
    (Old.merge_loop merge_distance (table, []) 0 table).2.
Proof.
  apply merge_loop_inv; [reflexivity | lia | apply merge_inv_start].
Qed.

(** [X17] The merge pass of [interpolate_brunnels_old] in closed form: a row
    is dropped exactly when it starts within [merge_distance] of the end
    of the row before it, and a retained row keeps its start and takes
    the end and the coordinates of the row after it when that one is
    dropped, of that row only. *)
Theorem merge_pass_closed_form (merge_distance : Q) (table : list Old.Row) :
  Old.merge_pass merge_distance table = merge_pass_closed merge_distance table.
Proof.
  unfold Old.merge_pass, merge_pass_closed, Old.drop_rows.
  pose proof (merge_loop_final merge_distance table) as Hinv.
  destruct (Old.merge_loop merge_distance (table, []) 0 table) as [T Dl].
  destruct Hinv as (Hlen & _ & _ & Hdrop & Hfinal & Hlast). cbn [fst snd] in *.
  apply (filter_imap_ext (fun p => p.1 ∉ Dl)
           (fun p => ~ merges_into_previous merge_distance table p.1)
           snd (fun p => merged_row merge_distance p.2 (table !! S p.1)) T table 0 Hlen).
  intros j t o Ht Ho. cbn [Nat.add fst snd].
  pose proof (lookup_lt_Some _ _ _ Ho) as Hj.
  assert (Hiff : j ∉ Dl <-> ~ merges_into_previous merge_distance table j).
  { rewrite Hdrop. tauto. }
  split; [exact Hiff|]. intros Hno. apply Hiff in Hno.
  destruct (decide (S j = length table)) as [Hend|Hmid].
  - rewrite (Hlast j o Ho Hno Hend) in Ht. injection Ht as <-.
    rewrite (proj2 (lookup_ge_None table (S j))) by lia. reflexivity.
  - rewrite (Hfinal j o Ho Hno) in Ht by lia. congruence.
Qed.

Lemma elem_of_merge_pass (merge_distance : Q) (table : list Old.Row) (r' : Old.Row) :
  r' ∈ Old.merge_pass merge_distance table ->
  exists j r, table !! j = Some r /\
    ~ merges_into_previous merge_distance table j /\
    r' = merged_row merge_distance r (table !! S j).
Proof.
  unfold Old.merge_pass, Old.drop_rows.
  pose proof (merge_loop_final merge_distance table) as Hinv.
  destruct (Old.merge_loop merge_distance (table, []) 0 table) as [T Dl].
  destruct Hinv as (Hlen & _ & _ & Hdrop & Hfinal & Hlast). cbn [fst snd] in *.
  intros H. apply list_elem_of_fmap in H as ([j t] & -> & H).
  apply list_elem_of_filter in H as [Hno H].
  apply elem_of_lookup_imap in H as (i & x & Heq & Ht).
  injection Heq as Hj Hx. subst i x. cbn [fst snd] in *.
  pose proof (lookup_lt_Some _ _ _ Ht) as Hlt. rewrite Hlen in Hlt.
  destruct (lookup_lt_is_Some_2 table j Hlt) as [r Hr].
  assert (Hnd : ~ merges_into_previous merge_distance table j)
    by (intros Hd; apply Hno, Hdrop; auto).
  exists j, r. split; [exact Hr|]. split; [exact Hnd|].
  destruct (decide (S j = length table)) as [Hend|Hmid].
  - rewrite (Hlast j r Hr Hnd Hend) in Ht. injection Ht as <-.
    rewrite (proj2 (lookup_ge_None table (S j))) by lia. reflexivity.
  - rewrite (Hfinal j r Hr Hnd) in Ht by lia. congruence.
Qed.

Lemma drop_rows_nil (f : nat -> Old.Row -> nat * Old.Row) (table : list Old.Row) :
  (forall i r, (f i r).2 = r) ->
  (filter (fun p : nat * Old.Row => p.1 ∉ ([] : list nat)) (imap f table)).*2 = table.
Proof.
  revert f. induction table as [|r table IH]; intros f Hf; [reflexivity|].
  rewrite imap_cons, filter_cons_True by apply not_elem_of_nil.
  cbn [fmap list_fmap]. rewrite Hf. f_equal. apply IH. intros i x. apply Hf.
Qed.

(** [X18] When no row starts within [merge_distance] of the end of the row
    before it, the merge pass returns the table as it is. *)
Theorem merge_pass_no_merge (merge_distance : Q) (table : list Old.Row) :
  (forall i, ~ merges_into_previous merge_distance table i) ->
  Old.merge_pass merge_distance table = table.
Proof.
  intros Hno. unfold Old.merge_pass, Old.drop_rows.
  pose proof (merge_loop_final merge_distance table) as Hinv.
  destruct (Old.merge_loop merge_distance (table, []) 0 table) as [T Dl].
  destruct Hinv as (Hlen & _ & _ & Hdrop & Hfinal & Hlast). cbn [fst snd] in *.
  assert (Dl = []) as ->.
  { apply elem_of_nil_inv. intros i Hi. apply Hdrop in Hi as [_ Hi]. exact (Hno i Hi). }
  assert (T = table) as ->; [|apply drop_rows_nil; reflexivity].
  apply list_eq. intros j.
  destruct (table !! j) as [r|] eqn:Hr.
  - pose proof (lookup_lt_Some _ _ _ Hr) as Hj.
    destruct (decide (S j = length table)) as [Hend|Hmid].
    + exact (Hlast j r Hr (Hno j) Hend).
    + rewrite (Hfinal j r Hr (Hno j)) by lia. f_equal.
      destruct (table !! S j) as [nx|] eqn:Hnx; [|reflexivity].
      cbn [merged_row]. destruct (decide _) as [Hm|]; [|reflexivity].
      exfalso. apply (Hno (S j)). cbn [merges_into_previous]. rewrite Hr, Hnx. exact Hm.
  - apply lookup_ge_None. apply lookup_ge_None in Hr. lia.
Qed.

Lemma merge_pass_no_merge_witness :
  Old.merge_pass 10 [Old.mkRow [(0, 0); (10, 0)] 0 10; Old.mkRow [(50, 0); (60, 0)] 50 60]
  = [Old.mkRow [(0, 0); (10, 0)] 0 10; Old.mkRow [(50, 0); (60, 0)] 50 60].
Proof.
  apply (merge_pass_no_merge 10
           [Old.mkRow [(0, 0); (10, 0)] 0 10; Old.mkRow [(50, 0); (60, 0)] 50 60]).
  intros [|[|[|i]]]; cbn; intros H; try exact H. vm_compute in H. apply H. reflexivity.
Defined.

Lemma res_mapM_inv {A B} (f : A -> res B) (l : list A) :
  forall bs, res_mapM f l = Ok bs -> Forall2 (fun a b => f a = Ok b) l bs.
Proof.
  induction l as [|a l IH]; intros bs H; cbn [res_mapM] in H.
  - injection H as <-. constructor.
  - apply bind_Ok in H as (b & Hb & H). apply bind_Ok in H as (bs' & Hbs & H).
    injection H as <-. constructor; [exact Hb | apply IH, Hbs].
Qed.

Lemma StronglySorted_lookup {A} (R : A -> A -> Prop) (l : list A) (i j : nat) (x y : A) :
  StronglySorted R l -> (i < j)%nat -> l !! i = Some x -> l !! j = Some y -> R x y.
Proof.
  intros Hs. revert i j. induction Hs as [|z l _ IH Hz]; intros i j Hij Hi Hj.
  - rewrite lookup_nil in Hi. discriminate.
  - destruct j as [|j]; [lia|]. cbn in Hj. destruct i as [|i].
    + injection Hi as <-. rewrite Forall_lookup in Hz. exact (Hz j y Hj).
    + cbn in Hi. apply (IH i j); [lia | assumption | assumption].
Qed.

#[local] Instance old_start_le_trans : Transitive Old.start_le.
Proof. intros a b c. unfold Old.start_le. lra. Qed.

#[local] Instance old_start_le_total : Total Old.start_le.
Proof.
  intros a b. unfold Old.start_le.
  destruct (Qlt_le_dec (Old.start_dist b) (Old.start_dist a)); [right | left]; lra.
Qed.

Section OldPhaseAProperties.
Variable project : Q * Q -> Q.
Variable geom_length : list (Q * Q) -> Q.

Lemma project_row_oriented (coords : list (Q * Q)) (r : Old.Row) :
  project_row project coords = Ok r -> Old.start_dist r <= Old.end_dist r.
Proof.
  unfold project_row. intros H.
  apply bind_Ok in H as (sp & _ & H). apply bind_Ok in H as (ep & _ & H).
  destruct (decide (project ep < project sp)); injection H as <-; cbn; lra.
Qed.

(** [X19] Every interval the old function works on runs forward: the
    projection swaps reversed end points, and sorting, merging and the
    length filter keep [start_dist <= end_dist]. *)
Theorem normalize_brunnels_oriented (geoms : list (list (Q * Q)))
    (merge_distance filter_brunnel_length : Q) (rows : list Old.Row) :
  normalize_brunnels project geom_length geoms merge_distance filter_brunnel_length
    = Ok rows ->
  Forall (fun r => Old.start_dist r <= Old.end_dist r) rows.
Proof.
  unfold normalize_brunnels, Old.phase_a_merge. intros H.
  apply bind_Ok in H as (projected & Hproj & H). injection H as <-.
  apply res_mapM_inv in Hproj.
  assert (Hor : Forall (fun r => Old.start_dist r <= Old.end_dist r) projected).
  { apply Forall_forall. intros r Hr.
    apply list_elem_of_lookup in Hr as [i Hr].
    destruct (Forall2_lookup_r _ _ _ i r Hproj Hr) as (coords & _ & Hrow).
    exact (project_row_oriented coords r Hrow). }
  set (sorted := Old.sort_by_start projected).
  assert (Hsorted : StronglySorted Old.start_le sorted)
    by (apply StronglySorted_merge_sort; apply _).
  assert (Hor' : Forall (fun r => Old.start_dist r <= Old.end_dist r) sorted).
  { unfold sorted, Old.sort_by_start. rewrite merge_sort_Permutation. exact Hor. }
  apply Forall_forall. intros r' Hr'.
  apply list_elem_of_filter in Hr' as [_ Hr'].
  apply elem_of_merge_pass in Hr' as (j & r & Hr & _ & ->).
  rewrite Forall_forall in Hor'.
  assert (Hrr : Old.start_dist r <= Old.end_dist r)
    by (apply Hor'; eapply list_elem_of_lookup_2, Hr).
  destruct (sorted !! S j) as [nx|] eqn:Hnx; [|exact Hrr].
  cbn [merged_row]. destruct (decide _); [|exact Hrr]. cbn.
  assert (Hnn : Old.start_dist nx <= Old.end_dist nx)
    by (apply Hor'; eapply list_elem_of_lookup_2, Hnx).
  pose proof (StronglySorted_lookup Old.start_le sorted j (S j) r nx Hsorted
                ltac:(lia) Hr Hnx) as Hle.
  unfold Old.start_le in Hle. lra.
Qed.
End OldPhaseAProperties.

Lemma normalize_brunnels_oriented_witness :
  Forall (fun r => Old.start_dist r <= Old.end_dist r)
    [Old.mkRow [(0, 0); (10, 0); (25, 0); (15, 0)] 0 25].
Proof.
  apply (normalize_brunnels_oriented fst (fun g => inject_Z (Z.of_nat (length g)))
           [[(25, 0); (15, 0)]; [(0, 0); (10, 0)]] 10 3).
  vm_compute. reflexivity.
Defined.

(** ** From the profile to the correction *)

Lemma elevation_profile_distances (line_length : Q) (line_interpolate : Q -> Q * Q)
    (line_end : Q * Q) (sample : Q -> Q -> bool -> sample_exn + Q)
    (distance : Q) (interpolated : bool) (xs ys ds eles : list Q) :
  0 < line_length -> 0 < distance ->
  elevation_profile line_length line_interpolate line_end sample distance interpolated
    = inr (xs, ys, ds, eles) ->
  StronglySorted Qlt ds /\ length eles = length ds.
Proof.
  intros HL Hd H. unfold elevation_profile in H.
  destruct (arange_spec ZeroDivisionError line_length distance HL Hd) as (Har & Hn & Hbelow).
  rewrite Har in H.
  destruct (sample_points_loop _ _ _) as [e|[[xs' ys'] eles']] eqn:Hloop; [discriminate|].
  injection H as <- <- <- <-.
  apply sample_points_loop_inr in Hloop as (_ & _ & Hall).
  split; [apply grid_snoc_sorted; assumption|].
  apply Forall2_length in Hall. rewrite <- Hall.
  rewrite !length_app, length_fmap. reflexivity.
Qed.

(** [X20] A profile built by [elevation_profile] never trips the assertion of
    [interpolate_brunnels] when the known intervals are pairwise
    disjoint: its distances strictly increase, so the constructed
    intervals cannot share a sample with one another or with a known
    one. *)
Theorem profile_then_interpolate (line_length : Q) (line_interpolate : Q -> Q * Q)
    (line_end : Q * Q) (sample : Q -> Q -> bool -> sample_exn + Q)
    (distance : Q) (interpolated : bool) (xs ys ds eles : list Q)
    (dt : dtype) (brunnels : list Brunnel) (distance_delta : Q) (construct_brunnels : bool)
    (max_bridge_length max_tunnel_length construct_brunnel_thresh : Q) :
  0 < line_length -> 0 < distance ->
  ForallOrdPairs brunnels_disjoint brunnels ->
  elevation_profile line_length line_interpolate line_end sample distance interpolated
    = inr (xs, ys, ds, eles) ->
  length eles = length ds /\
  interpolate_brunnels dt eles ds brunnels distance_delta construct_brunnels
    max_bridge_length max_tunnel_length construct_brunnel_thresh <> Raise AssertionError.
Proof.
  intros HL Hd Hdisj Hprofile.
  destruct (elevation_profile_distances _ _ _ _ _ _ _ _ _ _ HL Hd Hprofile) as [Hs Hlen].
  split; [exact Hlen|].
  unfold interpolate_brunnels. destruct (_ && _)%bool; [discriminate|]. intros H.
  apply bind_Raise in H as [H | (final & Hf & H)].
  - apply final_brunnels_Raise in H as [H | H]; discriminate.
  - apply correct_loop_Raise in H as [H | [[[H | H] _] | [[H _] | (_ & x & _ & Hx)]]];
      try discriminate.
    rewrite length_argwhere in Hx.
    pose proof (final_covers_at_most_one eles ds brunnels distance_delta construct_brunnels
                  max_bridge_length max_tunnel_length construct_brunnel_thresh
                  Hdisj Hs final x Hf).
    lia.
Qed.

Lemma profile_then_interpolate_witness :
  let xs := [0 * 10; 1 * 10; 2 * 10; 25] in
  let eles := [0 * 10 + 2 * (0 * 10); 1 * 10 + 2 * (1 * 10); 2 * 10 + 2 * (2 * 10); 25 + 50] in
  length eles = length xs /\
  interpolate_brunnels float64 eles xs [mkBrunnel bridge 5 15] 10 true 300 300 3
    <> Raise AssertionError.
Proof.
  apply (profile_then_interpolate 25 (fun d : Q => (d, 2 * d)) (25, 50)
           (fun (x y : Q) (_ : bool) => inr (x + y)) 10 false
           [0 * 10; 1 * 10; 2 * 10; 25]
           [2 * (0 * 10); 2 * (1 * 10); 2 * (2 * 10); 50]
           [0 * 10; 1 * 10; 2 * 10; 25]
           [0 * 10 + 2 * (0 * 10); 1 * 10 + 2 * (1 * 10); 2 * 10 + 2 * (2 * 10); 25 + 50]
           float64 [mkBrunnel bridge 5 15] 10 true 300 300 3).
  - reflexivity.
  - reflexivity.
  - constructor; constructor.
  - reflexivity.
Defined.
